(** * chess-explorer: the search and evaluation engine of [chessai.py]

    A shallow embedding of class [ChessAI] and the properties its
    specification states about it.

    Conventions of the embedding.
    - Python floats are idealised as exact rationals ([Qc]); the two
      infinities that [alpha] and [beta] may hold are added in [val]. The
      product of [get_entropy], where rounding depends on the order of the
      factors, is followed in float arithmetic as well
      ([get_entropy_double]).
    - The rules engine (python-chess) is external to the repository: it is
      the interface [RulesEngine]; module [Chess] below is an instance that
      follows the rules of chess and the enumeration order of python-chess.
    - [board] and [self.position_cache] are mutable objects shared by all
      calls: they live in a [World] that is threaded through every method,
      and that survives a raised exception. *)

From Stdlib Require Import ZArith QArith Qcanon List String Ascii Lia Sorting.Sorted.
From stdpp Require Import base option list gmap strings.

Set Default Proof Using "Type".
Local Open Scope Z_scope.

(** ** Values *)

(** A float that is finite, or one of the infinities. *)
Inductive val : Type :=
  | NegInf
  | Fin (q : Qc)
  | PosInf.

Definition Qcltb (x y : Qc) : bool :=
  match (x ?= y)%Qc with Lt => true | _ => false end.

(** [x < y] on floats. *)
Definition val_ltb (x y : val) : bool :=
  match x, y with
  | NegInf, NegInf => false
  | NegInf, _ => true
  | Fin _, NegInf => false
  | Fin a, Fin b => Qcltb a b
  | Fin _, PosInf => true
  | PosInf, _ => false
  end.

(** [x >= y] on floats. *)
Definition val_geb (x y : val) : bool := negb (val_ltb x y).

Definition dec (n d : Z) : Qc := (Qc_of_Z n / Qc_of_Z d)%Qc.

(** ** The rules engine (python-chess), at its interface *)

Inductive Player : Type := White | Black.

Class RulesEngine : Type := {
  Position : Type;
  Move : Type;
  (** [chess.Move.null()] *)
  null : Move;
  (** [move.from_square] *)
  from_square : Move -> Z;
  (** [board.legal_moves], in the order of enumeration *)
  legal_moves : Position -> list Move;
  (** the position that [board.push(move)] leads to *)
  play : Position -> Move -> Position;
  (** [board.turn]: [true] when White is to move *)
  turn : Position -> bool;
  (** [board.pieces(piece_type, color)]: the squares, ascending *)
  pieces : Position -> Z -> bool -> list Z;
  (** [chess.polyglot.zobrist_hash(board)] *)
  zobrist_hash : Position -> Z;
}.

(** ** Exceptions and the state of a run *)

Inductive exn : Type :=
  | IndexError       (* pop from empty list; list index out of range *)
  | AttributeError.  (* the object has no such attribute *)

Inductive outcome (A : Type) : Type :=
  | Ok (a : A)
  | Raise (e : exn).
Arguments Ok {A} a.
Arguments Raise {A} e.

Section Engine.
Context `{RulesEngine}.
(** The pickled classifier and the probability it gives to class 1. *)
Context {Model : Type} (predict_proba : Model -> list Z -> Qc).

(** A [chess.Board]: the current position and, for every move pushed, the
    move and the position it was played from ([pop] restores it). *)
Record Board : Type := {
  position : Position;
  move_stack : list (Move * Position);
}.

(** The files that [__init__] and [save_position_cache] open: the pickled
    caches and the pickled models, by path. The two kinds are kept apart (a
    path that holds both a cache and a model is not modelled), and unpickling
    gives back what was pickled. *)
Record Disk : Type := {
  cache_files : gmap string (gmap Z Qc);
  model_files : gmap string Model;
}.

(** The attributes of a [ChessAI] that differ between instances. *)
Record ChessAI : Type := {
  position_cache : gmap Z Qc;
  cache_path : string;
  model : option Model;
}.

Record World : Type := {
  self : ChessAI;
  board : Board;
  disk : Disk;
}.

Definition M (A : Type) : Type := World -> outcome A * World.

#[export] Instance M_ret : MRet M := fun A a w => (Ok a, w).
#[export] Instance M_bind : MBind M := fun A B f m w =>
  match m w with
  | (Ok a, w') => f a w'
  | (Raise e, w') => (Raise e, w')
  end.

Definition raise {A} (e : exn) : M A := fun w => (Raise e, w).
Definition get_board : M Board := fun w => (Ok (board w), w).
Definition set_board (b : Board) : M unit := fun w =>
  (Ok tt, {| self := self w; board := b; disk := disk w |}).
Definition get_cache : M (gmap Z Qc) := fun w =>
  (Ok (position_cache (self w)), w).
Definition set_cache (c : gmap Z Qc) : M unit := fun w =>
  (Ok tt, {| self := {| position_cache := c;
                        cache_path := cache_path (self w);
                        model := model (self w) |};
             board := board w; disk := disk w |}).

(** [board.push(move)] *)
Definition push (m : Move) : M unit :=
  b ← get_board;
  set_board {| position := play (position b) m;
               move_stack := (m, position b) :: move_stack b |}.

(** [board.pop()] *)
Definition pop : M Move :=
  b ← get_board;
  match move_stack b with
  | [] => raise IndexError
  | (m, p) :: st => set_board {| position := p; move_stack := st |};; mret m
  end.

(** *** Configuration ([__init__], lines 21-29) *)

(** [range(1,6)] *)
Definition piece_indices : list Z := [1; 2; 3; 4; 5].
Definition white_piece_values : list Qc :=
  [dec 1 1; dec 3 1; dec 33 10; dec 42 10; dec 9 1; dec 15 1].
Definition black_piece_values : list Qc :=
  map (fun x => (dec (-97) 100 * x)%Qc) white_piece_values.
Definition piece_values : list Qc := white_piece_values ++ black_piece_values.
Definition mobility_weight : Qc := dec 1 10.
Definition pawn_development_weight : Qc := dec 5 100.
Definition move_entropy_weight : Qc := dec 25 100.

(** [__init__]: what it prints, and the instance it builds. *)
Definition init (d : Disk) (cache_path : string) (model_path : option string)
  : list string * ChessAI :=
  let position_cache := default ∅ (cache_files d !! cache_path) in
  let '(out, model) :=
    match model_path with
    | Some p =>
        if String.eqb p "" then ([], None)
        else match model_files d !! p with
             | Some m => ([], Some m)
             | None =>
                 (["ERROR. Model not found. Please check model path again."%string],
                  None)
             end
    | None => ([], None)
    end in
  (out, {| position_cache := position_cache; cache_path := cache_path;
           model := model |}).

(** *** [get_entropy] and [build_distribution] *)

(** [if sample not in distribution: distribution[sample] = 0] followed by
    [distribution[sample] += 1], on a dict in insertion order. *)
Fixpoint dict_incr (sample : Z) (distribution : list (Z * Z)) : list (Z * Z) :=
  match distribution with
  | [] => [(sample, 0 + 1)]
  | (k, count) :: rest =>
      if Z.eqb sample k then (k, count + 1) :: rest
      else (k, count) :: dict_incr sample rest
  end.

Definition build_distribution (samples : list Z) : list (Z * Z) :=
  fold_left (fun distribution sample => dict_incr sample distribution) samples [].

(** The function returns at line 48; lines 49-54 are never reached. *)
Definition get_entropy (samples : list Z) : Qc :=
  fold_left (fun product count => (product * Qc_of_Z count)%Qc)
            (map snd (build_distribution samples)) (dec 1 1).

Definition get_move_starts (moves : list Move) : list Z := map from_square moves.

(** *** Features *)

Definition len {A} (l : list A) : Z := Z.of_nat (length l).

Definition count_pieces (b : Board) : list Z :=
  map (fun piece_index => len (pieces (position b) piece_index true)) piece_indices
  ++ map (fun piece_index => len (pieces (position b) piece_index false)) piece_indices.

(** [white_mobility, black_mobility, white_move_entropy, black_move_entropy] *)
Record mobility : Type := {
  white_mobility : Z;
  black_mobility : Z;
  white_move_entropy : Qc;
  black_move_entropy : Qc;
}.

Definition get_mobility_features : M mobility :=
  b ← get_board;
  if turn (position b) then
    let white_moves := legal_moves (position b) in
    let wm := len white_moves in
    let we := get_entropy (get_move_starts white_moves) in
    push null;;
    b' ← get_board;
    let black_moves := legal_moves (position b') in
    let bm := len black_moves in
    let be := get_entropy (get_move_starts black_moves) in
    pop;;
    mret {| white_mobility := wm; black_mobility := bm;
            white_move_entropy := we; black_move_entropy := be |}
  else
    let black_moves := legal_moves (position b) in
    let bm := len black_moves in
    let be := get_entropy (get_move_starts black_moves) in
    pop;;
    b' ← get_board;
    let white_moves := legal_moves (position b') in
    let wm := len white_moves in
    let we := get_entropy (get_move_starts white_moves) in
    push null;;
    mret {| white_mobility := wm; black_mobility := bm;
            white_move_entropy := we; black_move_entropy := be |}.

(** [int(square/8)] *)
Definition rank_index (square : Z) : Z := Z.quot square 8.

Definition sum_Z (l : list Z) : Z := fold_left Z.add l 0.

Definition get_pawn_development (b : Board) : Z * Z :=
  (sum_Z (map rank_index (pieces (position b) 1 true)),
   sum_Z (map rank_index (pieces (position b) 1 false))).

Definition get_heuristic_features : M (list Z * mobility * (Z * Z)) :=
  b ← get_board;
  let piece_counts := count_pieces b in
  mobility_features ← get_mobility_features;
  b' ← get_board;
  let pawn_development := get_pawn_development b' in
  mret (piece_counts, mobility_features, pawn_development).

(** *** [heuristic_valuation] *)

(** The loop of lines 163-164, from index [i] on. *)
Fixpoint weigh (i : nat) (piece_counts : list Z) (valuation : Qc) : M Qc :=
  match piece_counts with
  | [] => mret valuation
  | piece_count :: rest =>
      match piece_values !! i with
      | Some w => weigh (S i) rest (valuation + Qc_of_Z piece_count * w)%Qc
      | None => raise IndexError
      end
  end.

Definition mobility_term (mf : mobility) : Qc :=
  (mobility_weight *
     (Qc_of_Z (white_mobility mf) * white_move_entropy mf
      - Qc_of_Z (black_mobility mf) * black_move_entropy mf))%Qc.

Definition pawn_term (pd : Z * Z) : Qc :=
  (pawn_development_weight * (Qc_of_Z (fst pd) - Qc_of_Z (snd pd)))%Qc.

Definition heuristic_valuation : M Qc :=
  b ← get_board;
  let position_hash := zobrist_hash (position b) in
  cache ← get_cache;
  match cache !! position_hash with
  | Some v => mret v
  | None =>
      '(piece_counts, mobility_features, pawn_development) ← get_heuristic_features;
      valuation ← weigh 0 piece_counts (dec 0 1);
      let valuation :=
        (valuation + (mobility_term mobility_features + pawn_term pawn_development))%Qc in
      cache' ← get_cache;
      set_cache (<[position_hash := valuation]> cache');;
      mret valuation
  end.

(** *** [model_valuation] *)

(** [ChessAI] defines no method [get_mobility] (line 148): looking it up
    raises, after the pieces have been counted. *)
Definition get_model_features : M (list Z) :=
  b ← get_board;
  let piece_counts := count_pieces b in
  mobility ← raise (A := list Z) AttributeError;
  mret (piece_counts ++ mobility).

(** [self.model] is an attribute only when [__init__] has loaded one. *)
Definition get_model : M Model := fun w =>
  match model (self w) with
  | Some m => (Ok m, w)
  | None => (Raise AttributeError, w)
  end.

Definition model_valuation : M Qc :=
  features ← get_model_features;
  m ← get_model;
  mret (predict_proba m features).

(** *** Move ordering *)

Definition evaluate_move (m : Move) : M Qc :=
  push m;;
  valuation ← heuristic_valuation;
  pop;;
  mret valuation.

(** [for x in l: ys.append(f(x))] *)
Fixpoint for_each {A B} (f : A -> M B) (l : list A) : M (list B) :=
  match l with
  | [] => mret []
  | x :: rest => y ← f x; ys ← for_each f rest; mret (y :: ys)
  end.

(** Python's [sorted] is stable, also with [reverse=True]: an element goes
    in front of the first one that does not precede it strictly. *)
Fixpoint insert_by (before : Qc -> Qc -> bool) (x : Move * Qc)
    (l : list (Move * Qc)) : list (Move * Qc) :=
  match l with
  | [] => [x]
  | y :: rest =>
      if before (snd y) (snd x) then y :: insert_by before x rest
      else x :: y :: rest
  end.

Definition sort_by (before : Qc -> Qc -> bool) (l : list (Move * Qc))
  : list (Move * Qc) :=
  foldr (insert_by before) [] l.

(** [sorted(board.legal_moves, key=lambda move: self.evaluate_move(board,move),
    reverse=...)]: the keys are computed first, one call per move. *)
Definition sorted_moves (reverse : bool) : M (list Move) :=
  b ← get_board;
  let moves := legal_moves (position b) in
  keys ← for_each evaluate_move moves;
  let before := if reverse then (fun x y => Qcltb y x) else Qcltb in
  mret (map fst (sort_by before (zip moves keys))).

(** *** [alpha_beta_search] *)

(** The loop of lines 198-209; [search] is the recursive call. *)
Fixpoint white_loop (search : val -> val -> M val) (moves : list Move)
    (alpha beta : val) : M val :=
  match moves with
  | [] => mret alpha
  | move :: rest =>
      push move;;
      value ← search alpha beta;
      pop;;
      let alpha := if val_ltb alpha value then value else alpha in
      if val_geb alpha beta then mret alpha
      else white_loop search rest alpha beta
  end.

(** The loop of lines 212-223. *)
Fixpoint black_loop (search : val -> val -> M val) (moves : list Move)
    (alpha beta : val) : M val :=
  match moves with
  | [] => mret beta
  | move :: rest =>
      push move;;
      value ← search alpha beta;
      pop;;
      let beta := if val_ltb value beta then value else beta in
      if val_geb alpha beta then mret beta
      else black_loop search rest alpha beta
  end.

(** [player] is ['White'] or ['Black'], the only two strings the source
    passes; [depth] counts down to the test [depth == 0]. *)
Fixpoint alpha_beta_search (depth : nat) (alpha beta : val) (player : Player)
  : M val :=
  match depth with
  | O => value ← heuristic_valuation; mret (Fin value)
  | S depth' =>
      match player with
      | White =>
          moves ← sorted_moves true;
          white_loop (fun a b => alpha_beta_search depth' a b Black) moves alpha beta
      | Black =>
          moves ← sorted_moves false;
          black_loop (fun a b => alpha_beta_search depth' a b White) moves alpha beta
      end
  end.

(** *** Exhaustive minimax

    The traversal the specification compares the search with: every
    legal move of every node, in the order of enumeration, no ordering
    pass and no cutoff; the same leaf evaluation on the same board and
    cache. *)
Fixpoint max_loop (search : M val) (moves : list Move) (best : val) : M val :=
  match moves with
  | [] => mret best
  | move :: rest =>
      push move;;
      value ← search;
      pop;;
      max_loop search rest (if val_ltb best value then value else best)
  end.

Fixpoint min_loop (search : M val) (moves : list Move) (best : val) : M val :=
  match moves with
  | [] => mret best
  | move :: rest =>
      push move;;
      value ← search;
      pop;;
      min_loop search rest (if val_ltb value best then value else best)
  end.

Fixpoint minimax (depth : nat) (player : Player) : M val :=
  match depth with
  | O => value ← heuristic_valuation; mret (Fin value)
  | S depth' =>
      b ← get_board;
      match player with
      | White => max_loop (minimax depth' Black) (legal_moves (position b)) NegInf
      | Black => min_loop (minimax depth' White) (legal_moves (position b)) PosInf
      end
  end.

(** The same traversal with the ordering pass of the search, still without
    cutoff. *)
Fixpoint minimax_ordered (depth : nat) (player : Player) : M val :=
  match depth with
  | O => value ← heuristic_valuation; mret (Fin value)
  | S depth' =>
      match player with
      | White =>
          moves ← sorted_moves true;
          max_loop (minimax_ordered depth' Black) moves NegInf
      | Black =>
          moves ← sorted_moves false;
          min_loop (minimax_ordered depth' White) moves PosInf
      end
  end.

(** *** [move_optimization] and [save_position_cache] *)

(** The write is taken to succeed: a cache path that cannot be opened for
    writing (the empty path, for one) is outside this model. *)
Definition save_position_cache : M unit := fun w =>
  (Ok tt,
   {| self := self w; board := board w;
      disk := {| cache_files :=
                   <[cache_path (self w) := position_cache (self w)]>
                     (cache_files (disk w));
                 model_files := model_files (disk w) |} |}).

(** The loop of lines 229-236. [opt_move] is [None] while it is the
    string ['']. *)
Fixpoint root_loop (search : M val) (moves : list Move)
    (opt_move : option Move) (min_value : val) : M (option Move) :=
  match moves with
  | [] => mret opt_move
  | move :: rest =>
      push move;;
      value ← search;
      pop;;
      if val_ltb value min_value
      then root_loop search rest (Some move) value
      else root_loop search rest opt_move min_value
  end.

(** [depth'] is [depth - 1] (line 231): the selector is called with a
    positive depth. *)
Definition move_optimization (alpha beta : val) (depth' : nat) : M (option Move) :=
  b ← get_board;
  opt_move ← root_loop (alpha_beta_search depth' alpha beta White)
               (legal_moves (position b)) None (Fin (dec 10000000000 1));
  save_position_cache;;
  mret opt_move.

(** *** The sibling methods of [ChessPipeline.py]

    [ChessPipeline.get_piece_counts] and [ChessPipeline.get_mobility] compute
    the features the model is trained on; they take [piece_indices] to be
    [range(1,7)] and push the null move before they pop it, whoever is to
    move. *)

(** [range(1,7)] *)
Definition pipeline_piece_indices : list Z := [1; 2; 3; 4; 5; 6].

Definition pipeline_get_piece_counts (b : Board) : list Z :=
  map (fun piece_index => len (pieces (position b) piece_index true))
      pipeline_piece_indices
  ++ map (fun piece_index => len (pieces (position b) piece_index false))
         pipeline_piece_indices.

Definition pipeline_get_mobility : M (Z * Z) :=
  b ← get_board;
  if turn (position b) then
    let white_mobility := len (legal_moves (position b)) in
    push null;;
    b' ← get_board;
    let black_mobility := len (legal_moves (position b')) in
    pop;;
    mret (white_mobility, black_mobility)
  else
    let black_mobility := len (legal_moves (position b)) in
    push null;;
    b' ← get_board;
    let white_mobility := len (legal_moves (position b')) in
    pop;;
    mret (white_mobility, black_mobility).

End Engine.

Arguments Board {_}.
Arguments Disk : clear implicits.
Arguments ChessAI : clear implicits.
Arguments World {_} _.
Arguments M {_} _ _.

(** ** An instance of the rules engine: chess

    The rules of chess as python-chess implements them, with its order of
    enumeration: pieces before pawns, squares from h8 down to a1. Squares
    are numbered 0 (a1) to 63 (h8), piece types 1 (pawn) to 6 (king). *)
Module Chess.

Definition Piece : Type := bool * Z.

Record Pos : Type := {
  squares : list (option Piece);
  to_move : bool;
  castling_rights : list Z;
  ep_square : option Z;
}.

Record Mv : Type := {
  mv_from : Z;
  mv_to : Z;
  promotion : option Z;
}.

Definition mv (f t : Z) : Mv := {| mv_from := f; mv_to := t; promotion := None |}.
Definition mv_null : Mv := mv 0 0.

(** [bool(move)] *)
Definition mv_bool (m : Mv) : bool :=
  negb ((mv_from m =? 0) && (mv_to m =? 0)
        && match promotion m with Some _ => false | None => true end).

Definition square_file (s : Z) : Z := s mod 8.
Definition square_rank (s : Z) : Z := s / 8.

Definition piece_at (sqs : list (option Piece)) (s : Z) : option Piece :=
  if s <? 0 then None else nth (Z.to_nat s) sqs None.

Definition is_piece (sqs : list (option Piece)) (s : Z) (color : bool) (pt : Z) : bool :=
  match piece_at sqs s with
  | Some (c, t) => Bool.eqb c color && (t =? pt)
  | None => false
  end.

Definition has_color (sqs : list (option Piece)) (color : bool) (s : Z) : bool :=
  match piece_at sqs s with
  | Some (c, _) => Bool.eqb c color
  | None => false
  end.

Definition vacant (sqs : list (option Piece)) (s : Z) : bool :=
  match piece_at sqs s with Some _ => false | None => true end.

Definition put (sqs : list (option Piece)) (s : Z) (p : option Piece)
  : list (option Piece) :=
  <[Z.to_nat s := p]> sqs.

(** h8 down to a1, the order of [scan_reversed]. *)
Definition squares_desc : list Z := rev (seqZ 0 64).

(** The squares strictly between two aligned squares. *)
Definition between (a b : Z) : list Z :=
  let df := square_file b - square_file a in
  let dr := square_rank b - square_rank a in
  if (df =? 0) || (dr =? 0) || (Z.abs df =? Z.abs dr) then
    let step := Z.sgn df + 8 * Z.sgn dr in
    map (fun i => a + i * step) (seqZ 1 (Z.max (Z.abs df) (Z.abs dr) - 1))
  else [].

(** Does the piece on [s] attack [t]? *)
Definition attacks (sqs : list (option Piece)) (s t : Z) : bool :=
  match piece_at sqs s with
  | None => false
  | Some (color, pt) =>
      let df := square_file t - square_file s in
      let dr := square_rank t - square_rank s in
      let diag := (Z.abs df =? Z.abs dr) && negb (df =? 0) in
      let line := ((df =? 0) || (dr =? 0)) && negb ((df =? 0) && (dr =? 0)) in
      if pt =? 1 then (dr =? (if color then 1 else -1)) && (Z.abs df =? 1)
      else if pt =? 2 then
        ((Z.abs df =? 1) && (Z.abs dr =? 2)) || ((Z.abs df =? 2) && (Z.abs dr =? 1))
      else if pt =? 6 then Z.max (Z.abs df) (Z.abs dr) =? 1
      else
        (((pt =? 3) && diag) || ((pt =? 4) && line) || ((pt =? 5) && (diag || line)))
        && forallb (vacant sqs) (between s t)
  end.

Definition is_attacked_by (sqs : list (option Piece)) (color : bool) (t : Z) : bool :=
  existsb (fun s => has_color sqs color s && attacks sqs s t) squares_desc.

(** The king of [color] ([msb] of the king mask). *)
Definition king (sqs : list (option Piece)) (color : bool) : option Z :=
  head (filter (fun s => is_piece sqs s color 6 = true) squares_desc).

Definition in_check (sqs : list (option Piece)) (color : bool) : bool :=
  match king sqs color with
  | Some k => is_attacked_by sqs (negb color) k
  | None => false
  end.

Definition clean_castling_rights (p : Pos) : list Z :=
  filter (fun r =>
    ((r =? 7) || (r =? 0)) && is_piece (squares p) 4 true 6 && is_piece (squares p) r true 4
    || ((r =? 63) || (r =? 56)) && is_piece (squares p) 60 false 6
       && is_piece (squares p) r false 4 = true)
    (castling_rights p).

Definition has_right (p : Pos) (r : Z) : bool :=
  existsb (Z.eqb r) (clean_castling_rights p).

Definition promotions (f t : Z) : list Mv :=
  if (square_rank t =? 0) || (square_rank t =? 7) then
    map (fun pt => {| mv_from := f; mv_to := t; promotion := Some pt |}) [5; 4; 3; 2]
  else [mv f t].

Definition generate_pseudo_legal_ep (p : Pos) : list Mv :=
  match ep_square p with
  | None => []
  | Some e =>
      if vacant (squares p) e then
        map (fun s => mv s e)
          (filter (fun s => is_piece (squares p) s (to_move p) 1
                            && (square_rank s =? (if to_move p then 4 else 3))
                            && attacks (squares p) s e = true) squares_desc)
      else []
  end.

Definition generate_castling_moves (p : Pos) : list Mv :=
  let us := to_move p in
  let sqs := squares p in
  let k := if us then 4 else 60 in
  if is_piece sqs k us 6 then
    flat_map (fun '(rook, king_to, rook_to) =>
      if has_right p rook
         && forallb (vacant sqs) (between k rook)
         && negb (existsb (is_attacked_by (put sqs k None) (negb us))
                    (k :: between k king_to))
         && negb (is_attacked_by
                    (put (put (put sqs k None) rook None) rook_to (Some (us, 4)))
                    (negb us) king_to)
      then [mv k king_to] else [])
      (if us then [(7, 6, 5); (0, 2, 3)] else [(63, 62, 61); (56, 58, 59)])
  else [].

(** [generate_pseudo_legal_moves(from_mask, to_mask)]: [kings] tells
    whether the king is in the from-mask, [target] is the to-mask. *)
Definition generate_pseudo_legal_moves (p : Pos) (kings : bool) (target : Z -> bool)
  : list Mv :=
  let us := to_move p in
  let sqs := squares p in
  let d := if us then 8 else -8 in
  let pawns := filter (fun s => is_piece sqs s us 1 = true) squares_desc in
  let single_moves :=
    filter (fun t => vacant sqs t && is_piece sqs (t - d) us 1 = true) squares_desc in
  let double_moves :=
    filter (fun t => vacant sqs t && vacant sqs (t - d) && is_piece sqs (t - 2 * d) us 1
                     && (square_rank t =? (if us then 3 else 4)) = true) squares_desc in
  flat_map (fun s =>
    if has_color sqs us s && negb (is_piece sqs s us 1)
       && (kings || negb (is_piece sqs s us 6))
    then map (mv s)
           (filter (fun t => attacks sqs s t && negb (has_color sqs us t) && target t = true)
                   squares_desc)
    else []) squares_desc
  ++ (if kings then generate_castling_moves p else [])
  ++ flat_map (fun s =>
       flat_map (promotions s)
         (filter (fun t => attacks sqs s t && has_color sqs (negb us) t && target t = true)
                 squares_desc)) pawns
  ++ flat_map (fun t => promotions (t - d) t) (filter (fun t => target t = true) single_moves)
  ++ map (fun t => mv (t - 2 * d) t) (filter (fun t => target t = true) double_moves)
  ++ (match ep_square p with
      | Some e => if target e then generate_pseudo_legal_ep p else []
      | None => []
      end).

(** The position after [board.push(m)]. *)
Definition push_move (p : Pos) (m : Mv) : Pos :=
  let us := to_move p in
  let sqs := squares p in
  if negb (mv_bool m) then
    {| squares := sqs; to_move := negb us;
       castling_rights := castling_rights p; ep_square := None |}
  else
    match piece_at sqs (mv_from m) with
    | None =>
        {| squares := sqs; to_move := negb us;
           castling_rights := castling_rights p; ep_square := None |}
    | Some (_, pt) =>
        let diff := mv_to m - mv_from m in
        let sqs1 := put sqs (mv_from m) None in
        let sqs2 :=
          if (pt =? 1) && (match ep_square p with Some e => mv_to m =? e | None => false end)
             && ((Z.abs diff =? 7) || (Z.abs diff =? 9)) && vacant sqs (mv_to m)
          then put sqs1 (mv_to m + (if us then -8 else 8)) None
          else sqs1 in
        let ep :=
          if (pt =? 1) && (Z.abs diff =? 16) then Some (mv_from m + (if us then 8 else -8))
          else None in
        let sqs3 :=
          if (pt =? 6) && (Z.abs (square_file (mv_to m) - square_file (mv_from m)) =? 2) then
            if mv_from m <? mv_to m
            then put (put sqs2 (mv_to m + 1) None) (mv_to m - 1) (Some (us, 4))
            else put (put sqs2 (mv_to m - 2) None) (mv_to m + 1) (Some (us, 4))
          else sqs2 in
        let sqs4 := put sqs3 (mv_to m) (Some (us, default pt (promotion m))) in
        let rights :=
          filter (fun r =>
            negb ((pt =? 6) && (if us then (r =? 7) || (r =? 0) else (r =? 63) || (r =? 56)))
            && negb (r =? mv_from m) && negb (r =? mv_to m) = true) (castling_rights p) in
        {| squares := sqs4; to_move := negb us; castling_rights := rights; ep_square := ep |}
    end.

(** A candidate is kept when it leaves the mover's king unattacked. *)
Definition is_safe (p : Pos) (m : Mv) : bool :=
  negb (in_check (squares (push_move p m)) (to_move p)).

(** [_generate_evasions]: the king's moves first, then the moves that
    capture or block a single checker. *)
Definition generate_evasions (p : Pos) (k : Z) : list Mv :=
  let us := to_move p in
  let sqs := squares p in
  let checkers :=
    filter (fun s => has_color sqs (negb us) s && attacks sqs s k = true) squares_desc in
  map (mv k)
    (filter (fun t => attacks sqs k t && negb (has_color sqs us t) = true) squares_desc)
  ++ match checkers with
     | [c] =>
         let target t := (t =? c) || existsb (Z.eqb t) (between k c) in
         generate_pseudo_legal_moves p false target
         ++ match ep_square p with
            | Some e =>
                if negb (target e) && (e + (if us then -8 else 8) =? c)
                then generate_pseudo_legal_ep p else []
            | None => []
            end
     | _ => []
     end.

(** [board.legal_moves] *)
Definition generate_legal_moves (p : Pos) : list Mv :=
  let candidates :=
    match king (squares p) (to_move p) with
    | Some k =>
        if is_attacked_by (squares p) (negb (to_move p)) k
        then generate_evasions p k
        else generate_pseudo_legal_moves p true (fun _ => true)
    | None => generate_pseudo_legal_moves p true (fun _ => true)
    end in
  filter (fun m => is_safe p m = true) candidates.

(** [board.pieces(piece_type, color)] *)
Definition pieces_of (p : Pos) (pt : Z) (color : bool) : list Z :=
  filter (fun s => is_piece (squares p) s color pt = true) (seqZ 0 64).

(** The Polyglot key mixes one constant per piece on a square, per
    castling right, for the en-passant file when a pawn of the side to
    move stands next to the pawn that advanced, and for the side to move.
    The table of constants is not part of the repository; the key here is
    an injective code of the same components. *)
Definition piece_code (o : option Piece) : Z :=
  match o with
  | None => 0
  | Some (c, pt) => if c then pt else pt + 6
  end.

Definition ep_file (p : Pos) : Z :=
  match ep_square p with
  | None => 0
  | Some e =>
      let r := square_rank e + (if to_move p then -1 else 1) in
      if existsb (fun f => (0 <=? f) && (f <? 8) && is_piece (squares p) (r * 8 + f) (to_move p) 1)
           [square_file e - 1; square_file e + 1]
      then square_file e + 1 else 0
  end.

Definition key (p : Pos) : Z :=
  let rights :=
    fold_left (fun acc r => 2 * acc + (if has_right p r then 1 else 0)) [7; 0; 63; 56] 0 in
  fold_left (fun acc o => 13 * acc + piece_code o) (squares p)
    (((if to_move p then 1 else 0) * 16 + rights) * 9 + ep_file p).

#[export] Instance rules : RulesEngine := {|
  Position := Pos;
  Move := Mv;
  null := mv_null;
  from_square := mv_from;
  legal_moves := generate_legal_moves;
  play := push_move;
  turn := to_move;
  pieces := pieces_of;
  zobrist_hash := key;
|}.

(** *** Setting up positions *)

Definition P (c : bool) (pt : Z) : option Piece := Some (c, pt).
Definition empty_rank : list (option Piece) := repeat None 8.

Definition starting_squares : list (option Piece) :=
  map (P true) [4; 2; 3; 5; 6; 3; 2; 4] ++ repeat (P true 1) 8
  ++ empty_rank ++ empty_rank ++ empty_rank ++ empty_rank
  ++ repeat (P false 1) 8 ++ map (P false) [4; 2; 3; 5; 6; 3; 2; 4].

(** [chess.Board()] *)
Definition starting_position : Pos :=
  {| squares := starting_squares; to_move := true;
     castling_rights := [7; 0; 63; 56]; ep_square := None |}.

End Chess.

(** ** The notions the properties are stated with *)

(** How often [s] occurs among the samples. *)
Definition occurrences (s : Z) (samples : list Z) : Z :=
  len (filter (fun x => x = s) samples).

Definition product (l : list Qc) : Qc := foldr Qcmult (Q2Qc 1) l.

Definition group_product (samples : list Z) : Qc :=
  product (map (fun s => Qc_of_Z (occurrences s samples)) (remove_dups samples)).

Definition dict_get (d : list (Z * Z)) (k : Z) : Z :=
  match list_find (fun kv => fst kv = k) d with
  | Some (_, (_, c)) => c
  | None => 0
  end.

Section Specification.
Context `{RulesEngine} {Model : Type}.
Local Abbreviation World := (World Model).
Local Abbreviation M := (M Model).

Definition cache_of (w : World) : gmap Z Qc := position_cache (self w).

(** Running [m] keeps every binding of the cache. *)
Definition grows {A} (m : M A) : Prop :=
  forall w, cache_of w ⊆ cache_of (snd (m w)).

(** Running [m] leaves the cache as it is. *)
Definition keeps {A} (m : M A) : Prop :=
  forall w, cache_of (snd (m w)) = cache_of w.

Definition with_board (w : World) (b : Board) : World :=
  {| self := self w; board := b; disk := disk w |}.

Definition with_cache (w : World) (c : gmap Z Qc) : World :=
  {| self := {| position_cache := c; cache_path := cache_path (self w);
                model := model (self w) |};
     board := board w; disk := disk w |}.

(** The sum that the loop of lines 163-164 accumulates. *)
Definition material (piece_counts : list Z) : Qc :=
  fold_left (fun valuation '(piece_count, w) => (valuation + Qc_of_Z piece_count * w)%Qc)
            (zip piece_counts piece_values) (dec 0 1).

(** The moves that [get_mobility_features] counts as [white_mobility] and
    [black_mobility]: the side to move is measured on the board, the other
    side after the [push] or the [pop] of the branch taken. With Black to
    move these are not White's moves on the board, which are
    [stated_moves true]. *)
Definition white_moves_of (b : Board) : list Move :=
  if turn (position b) then legal_moves (position b)
  else match move_stack b with
       | (_, p) :: _ => legal_moves p
       | [] => []
       end.

Definition black_moves_of (b : Board) : list Move :=
  if turn (position b) then legal_moves (play (position b) null)
  else legal_moves (position b).

(** The board as [get_mobility_features] leaves it. *)
Definition board_after_mobility (b : Board) : Board :=
  if turn (position b) then b
  else match move_stack b with
       | (_, p) :: st => {| position := play p null; move_stack := (null, p) :: st |}
       | [] => b
       end.

Definition mobility_of (b : Board) : mobility :=
  {| white_mobility := len (white_moves_of b);
     black_mobility := len (black_moves_of b);
     white_move_entropy := get_entropy (get_move_starts (white_moves_of b));
     black_move_entropy := get_entropy (get_move_starts (black_moves_of b)) |}.

(** The value a cache miss computes, and the state it leaves. *)
Definition computed_valuation (b : Board) : Qc :=
  (material (count_pieces b)
   + (mobility_term (mobility_of b)
      + pawn_term (get_pawn_development (board_after_mobility b))))%Qc.





(** [m] returns and leaves the board as it was. *)
Definition restores {A} (m : M A) : Prop :=
  forall w : World, exists a w', m w = (Ok a, w') /\ board w' = board w.

(** [m], run after a [push], returns and leaves on top of the stack one
    entry over the position the push was made from, so that a [pop] leads
    back to it. *)
Definition keeps_frame {A} (m : M A) : Prop :=
  forall (w : World) m0 p st,
    move_stack (board w) = (m0, p) :: st ->
    exists a w' m1, m w = (Ok a, w') /\ move_stack (board w') = (m1, p) :: st.

End Specification.

(** ** The mobility contribution as the specification states it *)

Section Stated.
Context `{RulesEngine}.

(** The legal moves of a side as the specification measures them: those of
    the side to move on the board itself, those of the other side after a
    null move on that board. *)
Definition stated_moves (white : bool) (b : Board) : list Move :=
  if Bool.eqb (turn (position b)) white then legal_moves (position b)
  else legal_moves (play (position b) null).

(** The number of the moves that start from [square]. *)
Definition moves_from (square : Z) (moves : list Move) : Z :=
  len (filter (fun m => from_square m = square) moves).

(** The raw product, over the distinct origin squares of the moves, of the
    number of moves from that square. *)
Definition stated_concentration (moves : list Move) : Qc :=
  product (map (fun square => Qc_of_Z (moves_from square moves))
               (remove_dups (map from_square moves))).

(** [mobility_weight * (white_mobility * white_concentration
    - black_mobility * black_concentration)] *)
Definition stated_mobility_contribution (b : Board) : Qc :=
  (mobility_weight
   * (Qc_of_Z (len (stated_moves true b)) * stated_concentration (stated_moves true b)
      - Qc_of_Z (len (stated_moves false b))
        * stated_concentration (stated_moves false b)))%Qc.

End Stated.

(** ** The float product of [get_entropy]

    Where the order of the multiplications matters, exact rationals do not
    stand for the floats. [product] (line 43) starts as [1.0] and is
    multiplied by integer counts that are at least 1: every value it takes
    is a whole number or [inf]. *)

(** A double that holds a whole number, or [inf]. *)
Inductive double : Type := Whole (n : Z) | Inf.

(** What the float product returns: a double, or [OverflowError] (int too
    large to convert to float). *)
Inductive float_outcome : Type := Returns (d : double) | OverflowError.

(** Round to nearest, ties to even, with a significand of 53 bits and no
    bound on the exponent, for [0 <= n]. *)
Definition nearest (n : Z) : Z :=
  if n <? 2 ^ 53 then n
  else
    let e := Z.log2 n - 52 in
    let q := n / 2 ^ e in
    let r := n mod 2 ^ e in
    let half := 2 ^ (e - 1) in
    let q := if r <? half then q
             else if half <? r then q + 1
             else if Z.even q then q else q + 1 in
    q * 2 ^ e.

(** The double next to [n]: past the largest double it is [inf]. *)
Definition to_double (n : Z) : double :=
  if nearest n <? 2 ^ 1024 then Whole (nearest n) else Inf.

(** [product * count], the count being converted to a float first. *)
Definition double_times_int (product : double) (count : Z) : float_outcome :=
  if nearest count <? 2 ^ 1024 then
    match product with
    | Whole p => Returns (to_double (p * nearest count))
    | Inf => Returns Inf
    end
  else OverflowError.

(** The loop of lines 45-46. *)
Fixpoint float_product (counts : list Z) (product : double) : float_outcome :=
  match counts with
  | [] => Returns product
  | count :: rest =>
      match double_times_int product count with
      | Returns product => float_product rest product
      | OverflowError => OverflowError
      end
  end.

(** [get_entropy] in the arithmetic of floats (lines 41-48). *)
Definition get_entropy_double (samples : list Z) : float_outcome :=
  float_product (map snd (build_distribution samples)) (Whole 1).

(** The exact product of whole numbers. *)
Definition Zproduct (l : list Z) : Z := foldr Z.mul 1 l.

(** ** More of [ChessPipeline.py] *)

Section Pipeline.
Context `{RulesEngine} {Model : Type}.
Local Abbreviation M := (M Model).

(** [piece_counts[i]] *)
Definition item (piece_counts : list Z) (i : nat) : M Z :=
  match piece_counts !! i with
  | Some c => mret c
  | None => raise IndexError
  end.

(** [ChessPipeline.count_bishop_pairs] *)
Definition pipeline_count_bishop_pairs (piece_counts : list Z) : M (Z * Z) :=
  white_bishops ← item piece_counts 2;
  let white_bishop_pair := if white_bishops =? 2 then 1 else 0 in
  black_bishops ← item piece_counts 8;
  let black_bishop_pair := if black_bishops =? 2 then 1 else 0 in
  mret (white_bishop_pair, black_bishop_pair).

(** [ChessPipeline.get_features] *)
Definition pipeline_get_features : M (list Z) :=
  b ← get_board;
  let piece_counts := pipeline_get_piece_counts b in
  '(white_mobility, black_mobility) ← pipeline_get_mobility;
  '(white_bishop_pair, black_bishop_pair) ← pipeline_count_bishop_pairs piece_counts;
  let postitional_features := [white_mobility; black_mobility] in
  mret (piece_counts ++ postitional_features).

End Pipeline.

(** ** The pruning loop and the game it searches *)

Section PruningLoop.
Context {T X : Type} (lt : T -> T -> bool).

(** [acc] after [if value > acc: acc = value]. *)
Definition better (acc value : T) : T := if lt acc value then value else acc.

(** The loop of lines 198-209 without the board: [child x acc] is what the
    recursive call returns for [x] in the window from [acc] to [bound]. With
    the order turned round it is the loop of lines 212-223. *)
Fixpoint prune (child : X -> T -> T) (xs : list X) (acc bound : T) : T :=
  match xs with
  | [] => acc
  | x :: rest =>
      let acc := better acc (child x acc) in
      if negb (lt acc bound) then acc else prune child rest acc bound
  end.

(** [r] stands for [v] in the window from [acc] to [bound]: it is [v] when
    [v] lies inside, and lies on the same side as [v] otherwise. *)
Definition stands_for (acc bound v r : T) : Prop :=
  (lt acc v = true -> lt v bound = true -> r = v)
  /\ (lt acc v = false -> lt acc r = false)
  /\ (lt v bound = false -> lt r bound = false).

End PruningLoop.

(** [value < best], the comparison of the minimising side. *)
Definition val_gtb (a b : val) : bool := val_ltb b a.

Section CachedGame.
Context `{RulesEngine}.
Variable c : gmap Z Qc.

(** The valuation the cache holds for a position. *)
Definition cached_value (p : Position) : Qc :=
  default (dec 0 1) (c !! zobrist_hash p).

Definition is_cached (p : Position) : bool :=
  match c !! zobrist_hash p with Some _ => true | None => false end.

(** Every position that a search of this depth evaluates is in the cache:
    the board itself at depth 0, and from depth 1 on every position reached
    within [depth] moves. *)
Fixpoint covered (depth : nat) (p : Position) : bool :=
  match depth with
  | O => is_cached p
  | S depth' =>
      forallb (fun m => is_cached (play p m) && covered depth' (play p m))
              (legal_moves p)
  end.

(** The moves in the order the search tries them. *)
Definition ordered_moves (reverse : bool) (p : Position) : list Move :=
  let moves := legal_moves p in
  let keys := map (fun m => cached_value (play p m)) moves in
  let before := if reverse then (fun x y => Qcltb y x) else Qcltb in
  map fst (sort_by before (zip moves keys)).

(** The minimax value of a position over the cached valuations. *)
Fixpoint game_value (depth : nat) (player : Player) (p : Position) : val :=
  match depth with
  | O => Fin (cached_value p)
  | S depth' =>
      match player with
      | White =>
          foldl (better val_ltb) NegInf
                ((fun m => game_value depth' Black (play p m)) <$> legal_moves p)
      | Black =>
          foldl (better val_gtb) PosInf
                ((fun m => game_value depth' White (play p m)) <$> legal_moves p)
      end
  end.

(** What the search returns over the cached valuations. *)
Fixpoint pruned_value (depth : nat) (alpha beta : val) (player : Player)
    (p : Position) : val :=
  match depth with
  | O => Fin (cached_value p)
  | S depth' =>
      match player with
      | White =>
          prune val_ltb (fun m a => pruned_value depth' a beta Black (play p m))
                (ordered_moves true p) alpha beta
      | Black =>
          prune val_gtb (fun m b => pruned_value depth' alpha b White (play p m))
                (ordered_moves false p) beta alpha
      end
  end.

End CachedGame.

Section MoreNotions.
Context `{RulesEngine} {Model : Type}.
Local Abbreviation World := (World Model).

(** The world after [board.push(m)]. *)
Definition entered (w : World) (m : Move) : World :=
  with_board w {| position := play (position (board w)) m;
                  move_stack := (m, position (board w)) :: move_stack (board w) |}.

(** The one-ply valuation that the cache of [w] holds for move [m] on the
    board of [w]. *)
Definition cached_key (w : World) (m : Move) : Qc :=
  cached_value (cache_of w) (play (position (board w)) m).

(** [x] may stand in front of [y] in a list sorted by [before]. *)
Definition may_precede (before : Qc -> Qc -> bool) (x y : Move * Qc) : Prop :=
  before (snd y) (snd x) = false.

(** Along the list the keys do not rise ([reverse = true]), or do not fall
    ([reverse = false]). *)
Definition in_order (reverse : bool) (key : Move -> Qc) (l : list Move) : Prop :=
  StronglySorted
    (fun x y => (if reverse then Qcltb (key x) (key y)
                 else Qcltb (key y) (key x)) = false) l.

(** [heuristic_valuation] has nothing to pop: Black to move, no move on the
    stack, and no valuation in the cache. *)
Definition nothing_to_pop (w : World) : Prop :=
  cache_of w !! zobrist_hash (position (board w)) = None
  /\ turn (position (board w)) = false
  /\ move_stack (board w) = [].

End MoreNotions.

Section Surroundings.
Context `{RulesEngine} {Model : Type}.
Local Abbreviation World := (World Model).
Local Abbreviation M := (M Model).

(** What lies outside the board and the position cache: the files, and the
    cache path and the model of the engine. *)
Definition surroundings (w : World) : Disk Model * string * option Model :=
  (disk w, cache_path (self w), model (self w)).

(** Running [m] leaves them as they are, also when it raises. *)
Definition leaves_surroundings {A} (m : M A) : Prop :=
  forall w, surroundings (snd (m w)) = surroundings w.

End Surroundings.

(** ** The game headers of [ChessPipeline.py]

    [game.headers] is a mapping from header names to strings. A lookup of a
    name that is not there raises [KeyError]; the first character of an
    empty string raises [IndexError]. *)

Inductive header_exn : Type := KeyError | StringIndexError.

Inductive checked (A : Type) : Type :=
  | Value (a : A)
  | Error (e : header_exn).
Arguments Value {A} a.
Arguments Error {A} e.

(** [headers[name]] *)
Definition header (headers : gmap string string) (name : string) : checked string :=
  match headers !! name with
  | Some v => Value v
  | None => Error KeyError
  end.

(** [c in s] for a one-character string [c]. *)
Fixpoint contains (c : ascii) (s : string) : bool :=
  match s with
  | EmptyString => false
  | String c' rest => Ascii.eqb c c' || contains c rest
  end.

(** [ChessPipeline.headers_filter] *)
Definition headers_filter (headers : gmap string string) : checked bool :=
  if bool_decide (headers = ∅) then Value false
  else if negb (bool_decide (is_Some (headers !! "Date"%string))) then Value false
  else
    match header headers "Result" with
    | Error e => Error e
    | Value result =>
        match result with
        | EmptyString => Error StringIndexError
        | String c _ =>
            if Ascii.eqb c "*" then Value false
            else if contains "2" result then Value false
            else Value true
        end
    end.

(** [ChessPipeline.hash_game], on the headers of the game. *)
Definition hash_game (headers : gmap string string) : checked string :=
  match header headers "Date" with
  | Error e => Error e
  | Value date =>
      match header headers "Black" with
      | Error e => Error e
      | Value black =>
          match header headers "White" with
          | Error e => Error e
          | Value white => Value (String.concat " " [date; black; white])
          end
      end
  end.

(** The results a PGN game can carry. *)
Definition pgn_results : list string :=
  ["1-0"; "0-1"; "1/2-1/2"; "*"]%string.

(** No space in the string. *)
Definition spaceless (s : string) : Prop := contains " " s = false.

(** ** Boards and runs used in the statements *)

Module Setup.
Import Chess.

(** No trained model takes part in the heuristic search. *)
Definition no_model_proba (m : unit) (features : list Z) : Qc := dec 0 1.

(** A fresh engine (empty cache, no model) on board [b]. *)
Definition fresh (b : Board) : World unit :=
  {| self := {| position_cache := ∅; cache_path := "cache"; model := None |};
     board := b;
     disk := {| cache_files := ∅; model_files := ∅ |} |}.

Definition start_board : Board :=
  {| position := starting_position; move_stack := [] |}.

Definition e2e4 : Mv := mv 12 28.
Definition e4d5 : Mv := mv 28 35.
Definition a2a3 : Mv := mv 8 16.

(** [board.push(m)] outside the engine. *)
Definition pushed (b : Board) (m : Mv) : Board :=
  {| position := push_move (position b) m;
     move_stack := (m, position b) :: move_stack b |}.

(** The board after 1. e4. *)
Definition after_e4 : Board := pushed start_board e2e4.

(** The same position set up directly (from its FEN): no move to undo. *)
Definition after_e4_fen : Board :=
  {| position := position after_e4; move_stack := [] |}.


(** White king g1, black king d1, White to move
    (FEN [8/8/8/8/8/8/8/3k2K1 w - - 0 1]). *)
Definition two_kings : Pos :=
  {| squares := [None; None; None; P false 6; None; None; P true 6; None]
                ++ repeat None 56;
     to_move := true; castling_rights := []; ep_square := None |}.

Definition two_kings_board : Board :=
  {| position := two_kings; move_stack := [] |}.


(** The same position reached from two different positions: the white king
    came to g2 from g1, or from h1; the black king stands on d1. *)
Definition kings (white_king black_king : Z) : Pos :=
  {| squares := put (put (repeat None 64) white_king (P true 6)) black_king (P false 6);
     to_move := true; castling_rights := []; ep_square := None |}.

Definition king_from_g1 : Board :=
  pushed {| position := kings 6 3; move_stack := [] |} (mv 6 14).

Definition king_from_h1 : Board :=
  pushed {| position := kings 7 3; move_stack := [] |} (mv 7 14).



(** An engine that holds one valuation of the starting position. *)
Definition primed : World unit :=
  {| self := {| position_cache := {[ key starting_position := dec 1 2 ]};
                cache_path := "cache"; model := None |};
     board := start_board;
     disk := {| cache_files := ∅; model_files := ∅ |} |}.

(** What a run returned. *)
Definition returned {A} (r : outcome A * World unit) : outcome A := fst r.
Definition board_after {A} (r : outcome A * World unit) : Board := board (snd r).

End Setup.

(** ** More boards and runs *)

Module Cases.
Import Chess Setup.



(** The engine after one search of depth 2 of the two kings. *)
Definition after_search : World unit :=
  snd (alpha_beta_search 2 NegInf PosInf White (fresh two_kings_board)).

(** The squares white moves start from, in two orders of enumeration. *)
Definition starts : list Z := [12; 6; 12; 1].
Definition starts' : list Z := [6; 12; 12; 1].

(** Thirty-three squares with three moves each and one with five, the five
    counted last or first. *)
Definition threes_then_five : list Z :=
  flat_map (fun square => repeat square 3) (seqZ 0 33) ++ repeat 33 5%nat.
Definition five_then_threes : list Z :=
  repeat 33 5%nat ++ flat_map (fun square => repeat square 3) (seqZ 0 33).

(** The headers of a won game, and of the same game entered as a draw. *)
Definition won_game : gmap string string :=
  list_to_map [("Date", "2019.03.02"); ("White", "Anand"); ("Black", "Kramnik");
               ("Result", "1-0")]%string.

Definition drawn_game : gmap string string :=
  <["Result"%string := "1/2-1/2"%string]> won_game.

End Cases.

(** ** Facts about values *)

Lemma outcome_Qc_eq (r : outcome Qc) (q : Qc) :
  match r with Ok a => Qeq_bool (this a) (this q) | Raise _ => false end = true ->
  r = Ok q.
Proof.
  destruct r as [a|e]; [|discriminate].
  intros E. f_equal. apply Qc_is_canon, Qeq_bool_iff, E.
Qed.

Lemma outcome_val_eq (r : outcome val) (q : Qc) :
  match r with Ok (Fin a) => Qeq_bool (this a) (this q) | _ => false end = true ->
  r = Ok (Fin q).
Proof.
  destruct r as [[|a|]|e]; try discriminate.
  intros E. do 2 f_equal. apply Qc_is_canon, Qeq_bool_iff, E.
Qed.

Lemma Qc_eq_by_compute (a b : Qc) : Qeq_bool (this a) (this b) = true -> a = b.
Proof. intros E. apply Qc_is_canon, Qeq_bool_iff, E. Qed.

Lemma Qc_neq_by_compute (a b : Qc) : Qeq_bool (this a) (this b) = false -> a <> b.
Proof.
  intros E ->. rewrite (proj2 (Qeq_bool_iff _ _)) in E; [discriminate|reflexivity].
Qed.

Ltac run_Qc := apply outcome_Qc_eq; vm_compute; reflexivity.
Ltac run_val := apply outcome_val_eq; vm_compute; reflexivity.

(** ** The position cache only grows *)

Section CacheFacts.
Context `{RulesEngine} {Model : Type}.
Local Abbreviation World := (World Model).
Local Abbreviation M := (M Model).
Local Abbreviation keeps := (keeps (Model := Model)).
Local Abbreviation grows := (grows (Model := Model)).

Lemma keeps_grows {A} (m : M A) : keeps m -> grows m.
Proof. intros K w. rewrite K. reflexivity. Qed.

Lemma keeps_ret {A} (a : A) : keeps (mret a : M A).
Proof. intros w. reflexivity. Qed.

Lemma keeps_raise {A} (e : exn) : keeps (raise e : M A).
Proof. intros w. reflexivity. Qed.

Lemma keeps_bind {A B} (m : M A) (f : A -> M B) :
  keeps m -> (forall a, keeps (f a)) -> keeps (m ≫= f).
Proof.
  intros Km Kf w. unfold mbind, M_bind.
  specialize (Km w). destruct (m w) as [[a|e] w1]; simpl in *.
  - rewrite Kf. exact Km.
  - exact Km.
Qed.

Lemma grows_bind {A B} (m : M A) (f : A -> M B) :
  grows m -> (forall a, grows (f a)) -> grows (m ≫= f).
Proof.
  intros Gm Gf w. unfold mbind, M_bind.
  specialize (Gm w). destruct (m w) as [[a|e] w1]; simpl in *.
  - etrans; [exact Gm|apply Gf].
  - exact Gm.
Qed.

Lemma keeps_get_board : keeps get_board.
Proof. intros w. reflexivity. Qed.

Lemma keeps_set_board b : keeps (set_board b).
Proof. intros w. reflexivity. Qed.

Lemma keeps_get_cache : keeps get_cache.
Proof. intros w. reflexivity. Qed.

Lemma keeps_push m : keeps (push m).
Proof. apply keeps_bind; [apply keeps_get_board|intros b; apply keeps_set_board]. Qed.

Lemma keeps_pop : keeps pop.
Proof.
  apply keeps_bind; [apply keeps_get_board|intros b].
  destruct (move_stack b) as [|[m p] st]; [apply keeps_raise|].
  apply keeps_bind; [apply keeps_set_board|intros _; apply keeps_ret].
Qed.

Lemma keeps_get_mobility_features : keeps get_mobility_features.
Proof.
  apply keeps_bind; [apply keeps_get_board|intros b].
  destruct (turn (position b)).
  - apply keeps_bind; [apply keeps_push|intros _].
    apply keeps_bind; [apply keeps_get_board|intros b'].
    apply keeps_bind; [apply keeps_pop|intros _; apply keeps_ret].
  - apply keeps_bind; [apply keeps_pop|intros _].
    apply keeps_bind; [apply keeps_get_board|intros b'].
    apply keeps_bind; [apply keeps_push|intros _; apply keeps_ret].
Qed.

Lemma keeps_get_heuristic_features : keeps get_heuristic_features.
Proof.
  apply keeps_bind; [apply keeps_get_board|intros b].
  apply keeps_bind; [apply keeps_get_mobility_features|intros mf].
  apply keeps_bind; [apply keeps_get_board|intros b'; apply keeps_ret].
Qed.

Lemma keeps_weigh counts : forall i v, keeps (weigh i counts v).
Proof.
  induction counts as [|c cs IH]; intros i v; simpl; [apply keeps_ret|].
  destruct (piece_values !! i); [apply IH|apply keeps_raise].
Qed.

(** A cache hit returns the stored value and changes nothing. *)
Lemma heuristic_valuation_hit (w : World) (v : Qc) :
  cache_of w !! zobrist_hash (position (board w)) = Some v ->
  heuristic_valuation w = (Ok v, w).
Proof.
  intros Hit. unfold heuristic_valuation, mbind, M_bind, get_board, get_cache.
  unfold cache_of in Hit. rewrite Hit. reflexivity.
Qed.

Lemma grows_heuristic_valuation : grows heuristic_valuation.
Proof.
  intros w. unfold heuristic_valuation, mbind at 1 2, M_bind, get_board, get_cache.
  destruct (position_cache (self w) !! zobrist_hash (position (board w))) as [v|] eqn:E;
    [reflexivity|].
  unfold mbind at 1, M_bind.
  pose proof (keeps_get_heuristic_features w) as K1.
  destruct (get_heuristic_features w) as [[[[pc mf] pd]|e] w1]; simpl in *;
    [|rewrite K1; reflexivity].
  unfold mbind at 1, M_bind.
  pose proof (keeps_weigh pc 0%nat (dec 0 1) w1) as K2.
  destruct (weigh 0 pc (dec 0 1) w1) as [[v|e] w2]; simpl in *;
    [|rewrite K2, K1; reflexivity].
  unfold mbind, M_bind, get_cache, set_cache, mret, M_ret, cache_of in *; simpl.
  rewrite K2, K1. apply insert_subseteq, E.
Qed.

Lemma grows_evaluate_move m : grows (evaluate_move m).
Proof.
  apply grows_bind; [apply keeps_grows, keeps_push|intros _].
  apply grows_bind; [apply grows_heuristic_valuation|intros v].
  apply grows_bind; [apply keeps_grows, keeps_pop|intros _].
  apply keeps_grows, keeps_ret.
Qed.

Lemma grows_for_each {A B} (f : A -> M B) (l : list A) :
  (forall a, grows (f a)) -> grows (for_each f l).
Proof.
  intros Gf. induction l as [|x l IH]; simpl; [apply keeps_grows, keeps_ret|].
  apply grows_bind; [apply Gf|intros y].
  apply grows_bind; [apply IH|intros ys; apply keeps_grows, keeps_ret].
Qed.

Lemma grows_sorted_moves reverse : grows (sorted_moves reverse).
Proof.
  apply grows_bind; [apply keeps_grows, keeps_get_board|intros b].
  apply grows_bind; [apply grows_for_each, grows_evaluate_move|intros keys].
  apply keeps_grows, keeps_ret.
Qed.

Lemma grows_white_loop (search : val -> val -> M val) moves :
  (forall a b, grows (search a b)) ->
  forall alpha beta, grows (white_loop search moves alpha beta).
Proof.
  intros Gs. induction moves as [|m ms IH]; intros alpha beta; simpl;
    [apply keeps_grows, keeps_ret|].
  apply grows_bind; [apply keeps_grows, keeps_push|intros _].
  apply grows_bind; [apply Gs|intros v].
  apply grows_bind; [apply keeps_grows, keeps_pop|intros _].
  destruct (val_geb _ beta); [apply keeps_grows, keeps_ret|apply IH].
Qed.

Lemma grows_black_loop (search : val -> val -> M val) moves :
  (forall a b, grows (search a b)) ->
  forall alpha beta, grows (black_loop search moves alpha beta).
Proof.
  intros Gs. induction moves as [|m ms IH]; intros alpha beta; simpl;
    [apply keeps_grows, keeps_ret|].
  apply grows_bind; [apply keeps_grows, keeps_push|intros _].
  apply grows_bind; [apply Gs|intros v].
  apply grows_bind; [apply keeps_grows, keeps_pop|intros _].
  destruct (val_geb alpha _); [apply keeps_grows, keeps_ret|apply IH].
Qed.

Lemma grows_alpha_beta_search depth :
  forall alpha beta player, grows (alpha_beta_search depth alpha beta player).
Proof.
  induction depth as [|d IH]; intros alpha beta player; simpl.
  - apply grows_bind; [apply grows_heuristic_valuation|intros v].
    apply keeps_grows, keeps_ret.
  - destruct player.
    + apply grows_bind; [apply grows_sorted_moves|intros moves].
      apply grows_white_loop. intros a b. apply IH.
    + apply grows_bind; [apply grows_sorted_moves|intros moves].
      apply grows_black_loop. intros a b. apply IH.
Qed.

Lemma grows_root_loop (search : M val) moves :
  grows search -> forall opt min_value, grows (root_loop search moves opt min_value).
Proof.
  intros Gs. induction moves as [|m ms IH]; intros opt min_value; simpl;
    [apply keeps_grows, keeps_ret|].
  apply grows_bind; [apply keeps_grows, keeps_push|intros _].
  apply grows_bind; [apply Gs|intros v].
  apply grows_bind; [apply keeps_grows, keeps_pop|intros _].
  destruct (val_ltb v min_value); apply IH.
Qed.

Lemma keeps_save_position_cache : keeps save_position_cache.
Proof. intros w. reflexivity. Qed.

Lemma grows_move_optimization alpha beta depth' :
  grows (move_optimization alpha beta depth').
Proof.
  apply grows_bind; [apply keeps_grows, keeps_get_board|intros b].
  apply grows_bind; [apply grows_root_loop, grows_alpha_beta_search|intros opt].
  apply grows_bind; [apply keeps_grows, keeps_save_position_cache|intros _].
  apply keeps_grows, keeps_ret.
Qed.

Lemma keeps_model_valuation predict_proba : keeps (model_valuation predict_proba).
Proof.
  apply keeps_bind.
  - apply keeps_bind; [apply keeps_get_board|intros b].
    apply keeps_bind; [apply keeps_raise|intros x; apply keeps_ret].
  - intros features. apply keeps_bind; [|intros m; apply keeps_ret].
    intros w. unfold get_model. destruct (model (self w)); reflexivity.
Qed.

(** C9. The position cache is append-only. Every method of the engine
    ([heuristic_valuation], [evaluate_move], [alpha_beta_search],
    [move_optimization], [model_valuation], [save_position_cache]), run
    from any state and whether it returns or raises, leaves every key that
    was in the cache bound to the value it had, so a later lookup finds the
    same value; and [heuristic_valuation] first looks the board's hash up
    and, when it is there, returns the stored value without touching the
    cache or the board. *)
Theorem position_cache_append_only :
  (forall (w : World) (v : Qc),
      cache_of w !! zobrist_hash (position (board w)) = Some v ->
      heuristic_valuation w = (Ok v, w))
  /\ (forall (w : World) (k : Z) (v : Qc),
      cache_of w !! k = Some v ->
      cache_of (snd (heuristic_valuation w)) !! k = Some v
      /\ (forall m, cache_of (snd (evaluate_move m w)) !! k = Some v)
      /\ (forall depth alpha beta player,
            cache_of (snd (alpha_beta_search depth alpha beta player w)) !! k = Some v)
      /\ (forall alpha beta depth',
            cache_of (snd (move_optimization alpha beta depth' w)) !! k = Some v)
      /\ (forall predict_proba,
            cache_of (snd (model_valuation predict_proba w)) !! k = Some v)
      /\ cache_of (snd (save_position_cache w)) !! k = Some v).
Proof.
  split; [exact heuristic_valuation_hit|].
  intros w k v Hk.
  assert (G : forall A (m : M A), grows m -> cache_of (snd (m w)) !! k = Some v).
  { intros A m Gm. eapply lookup_weaken; [exact Hk|apply Gm]. }
  repeat split; intros; apply G.
  - apply grows_heuristic_valuation.
  - apply grows_evaluate_move.
  - apply grows_alpha_beta_search.
  - apply grows_move_optimization.
  - apply keeps_grows, keeps_model_valuation.
  - apply keeps_grows, keeps_save_position_cache.
Qed.

End CacheFacts.


(** ** What one heuristic evaluation does *)

Section EvaluationFacts.
Context `{RulesEngine} {Model : Type}.
Local Abbreviation World := (World Model).
Local Abbreviation M := (M Model).

Lemma run_bind {A B} (m : M A) (f : A -> M B) (w : World) :
  (m ≫= f) w =
    match m w with
    | (Ok a, w') => f a w'
    | (Raise e, w') => (Raise e, w')
    end.
Proof. reflexivity. Qed.

Lemma with_board_id (w : World) : with_board w (board w) = w.
Proof. destruct w; reflexivity. Qed.

Lemma weigh_spec (counts : list Z) : forall (i : nat) (v : Qc) (w : World),
  (i + length counts <= 12)%nat ->
  weigh i counts v w =
    (Ok (fold_left (fun valuation '(piece_count, x) => (valuation + Qc_of_Z piece_count * x)%Qc)
           (zip counts (drop i piece_values)) v), w).
Proof.
  induction counts as [|c cs IH]; intros i v w Hi; simpl in *; [reflexivity|].
  destruct (piece_values !! i) as [x|] eqn:E.
  - rewrite IH by lia. rewrite (drop_S _ _ _ E). reflexivity.
  - apply lookup_ge_None in E. change (length piece_values) with 12%nat in E. lia.
Qed.

Lemma count_pieces_length (b : Board) : length (count_pieces b) = 10%nat.
Proof. reflexivity. Qed.

Lemma weigh_count_pieces (b : Board) (w : World) :
  weigh 0 (count_pieces b) (dec 0 1) w = (Ok (material (count_pieces b)), w).
Proof. rewrite weigh_spec by (rewrite count_pieces_length; lia). reflexivity. Qed.

Lemma get_mobility_features_white (w : World) :
  turn (position (board w)) = true ->
  get_mobility_features w = (Ok (mobility_of (board w)), w).
Proof.
  intros T. destruct w as [s [p st] d]; simpl in T.
  unfold get_mobility_features, mobility_of, white_moves_of, black_moves_of.
  unfold mbind, M_bind, get_board, push, pop, set_board, mret, M_ret; simpl.
  rewrite T. reflexivity.
Qed.

Lemma get_mobility_features_black (w : World) :
  turn (position (board w)) = false ->
  move_stack (board w) <> [] ->
  get_mobility_features w =
    (Ok (mobility_of (board w)), with_board w (board_after_mobility (board w))).
Proof.
  intros T S. destruct w as [s [p [|[m q] st]] d]; simpl in T, S; [done|].
  unfold get_mobility_features, mobility_of, white_moves_of, black_moves_of,
    board_after_mobility, with_board.
  unfold mbind, M_bind, get_board, push, pop, set_board, mret, M_ret; simpl.
  rewrite T. reflexivity.
Qed.

Lemma get_mobility_features_black_empty (w : World) :
  turn (position (board w)) = false ->
  move_stack (board w) = [] ->
  get_mobility_features w = (Raise IndexError, w).
Proof.
  intros T S. destruct w as [s [p st] d]; simpl in T, S; subst st.
  unfold get_mobility_features.
  unfold mbind, M_bind, get_board, pop, raise; simpl.
  rewrite T. reflexivity.
Qed.

Lemma heuristic_valuation_miss (w : World) :
  position_cache (self w) !! zobrist_hash (position (board w)) = None ->
  (turn (position (board w)) = true \/ move_stack (board w) <> []) ->
  heuristic_valuation w =
    (Ok (computed_valuation (board w)),
     with_cache (with_board w (board_after_mobility (board w)))
       (<[zobrist_hash (position (board w)) := computed_valuation (board w)]>
          (position_cache (self w)))).
Proof.
  intros Miss Hb.
  unfold heuristic_valuation, mbind at 1 2, M_bind, get_board, get_cache.
  rewrite Miss.
  assert (F : get_mobility_features w =
              (Ok (mobility_of (board w)), with_board w (board_after_mobility (board w)))).
  { destruct (turn (position (board w))) eqn:T.
    - rewrite get_mobility_features_white by exact T.
      unfold board_after_mobility. rewrite T, with_board_id. reflexivity.
    - destruct Hb as [?|S]; [done|]. apply get_mobility_features_black; assumption. }
  unfold get_heuristic_features.
  rewrite run_bind, (run_bind get_board). unfold get_board at 1.
  rewrite (run_bind get_mobility_features), F.
  rewrite run_bind. unfold get_board at 1. unfold mret at 1, M_ret at 1.
  rewrite run_bind, weigh_count_pieces.
  reflexivity.
Qed.

(** C10. On a board with Black to move and an empty move stack, a
    heuristic evaluation that misses the cache returns no valuation: it
    raises [IndexError] (pop from an empty list), because
    [get_mobility_features] pops before it pushes the null move. Nothing has
    been changed by then. *)
Theorem heuristic_valuation_black_empty_stack_raises (w : World) :
  turn (position (board w)) = false ->
  move_stack (board w) = [] ->
  position_cache (self w) !! zobrist_hash (position (board w)) = None ->
  heuristic_valuation w = (Raise IndexError, w).
Proof.
  intros T S Miss.
  unfold heuristic_valuation, mbind at 1 2, M_bind, get_board, get_cache.
  rewrite Miss.
  unfold get_heuristic_features.
  rewrite run_bind, (run_bind get_board). unfold get_board at 1.
  rewrite (run_bind get_mobility_features).
  rewrite get_mobility_features_black_empty by assumption.
  reflexivity.
Qed.

End EvaluationFacts.


(** ** Make and undo *)

Section Frames.
Context `{RulesEngine} {Model : Type}.
Local Abbreviation World := (World Model).
Local Abbreviation M := (M Model).
Local Abbreviation restores := (restores (Model := Model)).
Local Abbreviation keeps_frame := (keeps_frame (Model := Model)).

Lemma restores_keeps_frame {A} (m : M A) : restores m -> keeps_frame m.
Proof.
  intros R w m0 p st S. destruct (R w) as (a & w' & E & B).
  exists a, w', m0. split; [exact E|]. rewrite B. exact S.
Qed.

Lemma keeps_frame_heuristic_valuation : keeps_frame heuristic_valuation.
Proof.
  intros w m0 p st S.
  destruct (position_cache (self w) !! zobrist_hash (position (board w))) as [v|] eqn:E.
  { exists v, w, m0. split; [|exact S]. apply heuristic_valuation_hit, E. }
  assert (Hb : turn (position (board w)) = true \/ move_stack (board w) <> [])
    by (right; rewrite S; discriminate).
  rewrite (heuristic_valuation_miss w E Hb).
  destruct (turn (position (board w))) eqn:T.
  - eexists _, _, m0. split; [reflexivity|].
    cbn [board with_cache with_board]. unfold board_after_mobility. rewrite T. exact S.
  - eexists _, _, null. split; [reflexivity|].
    cbn [board with_cache with_board]. unfold board_after_mobility. rewrite T, S.
    reflexivity.
Qed.

(** A move made, a search that keeps the frame, the move undone: the board
    is back, and the run goes on with the value found. *)
Lemma bracket_run {A B} (mv : Move) (search : M A) (k : A -> M B) (w : World) :
  keeps_frame search ->
  exists v w', board w' = board w
    /\ (push mv;; (v ← search; pop;; k v)) w = k v w'.
Proof.
  intros K. destruct w as [s [p st] d].
  destruct (K {| self := s;
                 board := {| position := play p mv; move_stack := (mv, p) :: st |};
                 disk := d |} mv p st eq_refl) as (v & w1 & m1 & E & S).
  destruct w1 as [s1 [p1 st1] d1]. cbn [board move_stack] in S. subst st1.
  exists v, {| self := s1; board := {| position := p; move_stack := st |}; disk := d1 |}.
  split; [reflexivity|].
  rewrite run_bind. unfold push at 1. rewrite run_bind. unfold get_board at 1, set_board at 1.
  cbn [board self disk position move_stack].
  rewrite run_bind, E. rewrite run_bind. unfold pop at 1. rewrite run_bind.
  unfold get_board at 1. cbn [board move_stack]. rewrite run_bind. reflexivity.
Qed.

Lemma restores_ret {A} (a : A) : restores (mret a : M A).
Proof. intros w. exists a, w. split; reflexivity. Qed.

Lemma restores_bind {A B} (m : M A) (f : A -> M B) :
  restores m -> (forall a, restores (f a)) -> restores (m ≫= f).
Proof.
  intros Rm Rf w. destruct (Rm w) as (a & w1 & E1 & B1).
  destruct (Rf a w1) as (b & w2 & E2 & B2).
  exists b, w2. split; [rewrite run_bind, E1; exact E2|congruence].
Qed.

Lemma restores_bracket {A B} (mv : Move) (search : M A) (k : A -> M B) :
  keeps_frame search -> (forall v, restores (k v)) ->
  restores (push mv;; (v ← search; pop;; k v)).
Proof.
  intros K Rk w. destruct (bracket_run mv search k w K) as (v & w1 & B1 & E).
  destruct (Rk v w1) as (b & w2 & E2 & B2).
  exists b, w2. split; [rewrite E; exact E2|congruence].
Qed.

Lemma restores_evaluate_move (mv : Move) : restores (evaluate_move mv).
Proof.
  apply restores_bracket; [apply keeps_frame_heuristic_valuation|].
  intros v. apply restores_ret.
Qed.

Lemma restores_for_each {A B} (f : A -> M B) (l : list A) :
  (forall x, restores (f x)) -> restores (for_each f l).
Proof.
  intros Rf. induction l as [|x l IH]; [apply restores_ret|].
  cbn [for_each]. apply restores_bind; [apply Rf|intros y].
  apply restores_bind; [apply IH|intros ys; apply restores_ret].
Qed.

Lemma restores_get_board : restores (get_board (Model := Model)).
Proof. intros w. exists (board w), w. split; reflexivity. Qed.

Lemma restores_sorted_moves reverse : restores (sorted_moves (Model := Model) reverse).
Proof.
  apply restores_bind; [apply restores_get_board|intros b].
  apply restores_bind; [apply restores_for_each, restores_evaluate_move|intros keys].
  apply restores_ret.
Qed.

Lemma restores_white_loop (search : val -> val -> M val) (moves : list Move) :
  (forall a b, keeps_frame (search a b)) ->
  forall alpha beta, restores (white_loop search moves alpha beta).
Proof.
  intros K. induction moves as [|mv ms IH]; intros alpha beta; [apply restores_ret|].
  cbn [white_loop]. apply restores_bracket; [apply K|intros v].
  destruct (val_geb _ beta); [apply restores_ret|apply IH].
Qed.

Lemma restores_black_loop (search : val -> val -> M val) (moves : list Move) :
  (forall a b, keeps_frame (search a b)) ->
  forall alpha beta, restores (black_loop search moves alpha beta).
Proof.
  intros K. induction moves as [|mv ms IH]; intros alpha beta; [apply restores_ret|].
  cbn [black_loop]. apply restores_bracket; [apply K|intros v].
  destruct (val_geb alpha _); [apply restores_ret|apply IH].
Qed.

Lemma alpha_beta_search_frames (depth : nat) :
  forall alpha beta player,
    keeps_frame (alpha_beta_search (Model := Model) depth alpha beta player)
    /\ (depth <> 0%nat -> restores (alpha_beta_search (Model := Model) depth alpha beta player)).
Proof.
  induction depth as [|d IH]; intros alpha beta player.
  - split; [|done]. intros w m0 p st S.
    destruct (keeps_frame_heuristic_valuation w m0 p st S) as (v & w' & m1 & E & S').
    exists (Fin v), w', m1. split; [|exact S'].
    cbn [alpha_beta_search]. rewrite run_bind, E. reflexivity.
  - assert (R : restores (alpha_beta_search (Model := Model) (S d) alpha beta player)).
    { cbn [alpha_beta_search]. destruct player.
      - apply restores_bind; [apply restores_sorted_moves|intros moves].
        apply restores_white_loop. intros a b. apply IH.
      - apply restores_bind; [apply restores_sorted_moves|intros moves].
        apply restores_black_loop. intros a b. apply IH. }
    split; [apply restores_keeps_frame, R|intros _; exact R].
Qed.

Lemma restores_root_loop (search : M val) (moves : list Move) :
  keeps_frame search ->
  forall opt min_value, restores (root_loop search moves opt min_value).
Proof.
  intros K. induction moves as [|mv ms IH]; intros opt min_value; [apply restores_ret|].
  cbn [root_loop]. apply restores_bracket; [exact K|intros v].
  destruct (val_ltb v min_value); apply IH.
Qed.

Lemma restores_move_optimization alpha beta depth' :
  restores (move_optimization (Model := Model) alpha beta depth').
Proof.
  apply restores_bind; [apply restores_get_board|intros b].
  apply restores_bind; [apply restores_root_loop, alpha_beta_search_frames|intros opt].
  apply restores_bind; [|intros _; apply restores_ret].
  intros w. exists tt. eexists. split; reflexivity.
Qed.


(** From depth 1 on, the search returns a value and leaves the board as it
    found it, cutoff or not: every move made in the loops is undone, and the
    evaluation, reached after a [push] only, leaves on the stack one entry to
    pop. *)
Lemma alpha_beta_search_restores_board (depth' : nat) (alpha beta : val)
    (player : Player) (w : World) :
  exists v w', alpha_beta_search (S depth') alpha beta player w = (Ok v, w')
               /\ board w' = board w.
Proof. apply alpha_beta_search_frames. discriminate. Qed.

End Frames.

(** ** The concentration statistic *)

Lemma dec_1_1 : dec 1 1 = Q2Qc 1.
Proof. apply Qc_is_canon. reflexivity. Qed.

Lemma product_fold_left (l : list Z) : forall acc : Qc,
  fold_left (fun p c => (p * Qc_of_Z c)%Qc) l acc = (acc * product (map Qc_of_Z l))%Qc.
Proof.
  induction l as [|c l IH]; intros acc; simpl.
  - unfold product; simpl. ring.
  - rewrite IH. unfold product; simpl. ring.
Qed.

Lemma product_perm (l1 l2 : list Qc) : l1 ≡ₚ l2 -> product l1 = product l2.
Proof.
  induction 1 as [|x l l' _ IH|x y l|l l' l'' _ IH1 _ IH2]; unfold product in *; simpl.
  - reflexivity.
  - rewrite IH. reflexivity.
  - ring.
  - congruence.
Qed.

Lemma dict_incr_keys (s : Z) (d : list (Z * Z)) :
  (dict_incr s d).*1 = if decide (s ∈ d.*1) then d.*1 else d.*1 ++ [s].
Proof.
  induction d as [|[k c] d IH].
  - rewrite decide_False by apply not_elem_of_nil. reflexivity.
  - cbn [dict_incr]. destruct (Z.eqb_spec s k) as [->|Hne].
    + rewrite decide_True by (rewrite fmap_cons; apply elem_of_cons; auto).
      reflexivity.
    + rewrite !fmap_cons, IH. cbn [fst].
      destruct (decide (s ∈ d.*1)) as [Hin|Hin].
      * rewrite decide_True by (apply elem_of_cons; auto). reflexivity.
      * rewrite decide_False; [reflexivity|].
        intros [?|?]%elem_of_cons; done.
Qed.

Lemma dict_get_cons (k' c : Z) (d : list (Z * Z)) (k : Z) :
  dict_get ((k', c) :: d) k = if decide (k' = k) then c else dict_get d k.
Proof.
  unfold dict_get. simpl. destruct (decide (k' = k)); [reflexivity|].
  destruct (list_find _ d) as [[? [? ?]]|]; reflexivity.
Qed.

Lemma dict_get_incr (s : Z) (d : list (Z * Z)) (k : Z) :
  dict_get (dict_incr s d) k = dict_get d k + (if decide (k = s) then 1 else 0).
Proof.
  induction d as [|[k' c] d IH]; simpl.
  - rewrite dict_get_cons. unfold dict_get; simpl.
    destruct (decide (s = k)), (decide (k = s)); try done; congruence.
  - destruct (Z.eqb_spec s k') as [->|Hne]; rewrite !dict_get_cons.
    + destruct (decide (k' = k)), (decide (k = k')); try done; try congruence; lia.
    + rewrite IH. destruct (decide (k' = k)), (decide (k = s)); try lia; congruence.
Qed.

Lemma dict_values (d : list (Z * Z)) :
  NoDup d.*1 -> d.*2 = dict_get d <$> d.*1.
Proof.
  induction d as [|[k c] d IH]; intros ND; [reflexivity|].
  rewrite !fmap_cons in *. cbn [fst snd] in *. apply NoDup_cons in ND as [Hk ND].
  rewrite dict_get_cons, decide_True by done. f_equal.
  rewrite IH by done. apply list_fmap_ext. intros i k' Hin%list_elem_of_lookup_2.
  rewrite dict_get_cons. destruct (decide (k = k')); [congruence|reflexivity].
Qed.

Lemma occurrences_cons (k s : Z) (l : list Z) :
  occurrences k (s :: l) = occurrences k l + (if decide (s = k) then 1 else 0).
Proof.
  unfold occurrences, len. rewrite filter_cons.
  destruct (decide (s = k)); simpl length; lia.
Qed.

Lemma build_from (samples : list Z) : forall d : list (Z * Z),
  NoDup d.*1 ->
  let d' := fold_left (fun distribution sample => dict_incr sample distribution) samples d in
  NoDup d'.*1
  /\ (forall k, k ∈ d'.*1 <-> k ∈ d.*1 \/ k ∈ samples)
  /\ (forall k, dict_get d' k = dict_get d k + occurrences k samples).
Proof.
  induction samples as [|s l IH]; intros d ND; simpl.
  - split; [done|]. split; [intros k; rewrite elem_of_nil; tauto|].
    intros k. unfold occurrences, len. simpl. lia.
  - assert (ND' : NoDup (dict_incr s d).*1).
    { rewrite dict_incr_keys. destruct (decide (s ∈ d.*1)); [done|].
      apply NoDup_app. split; [done|]. split; [|apply NoDup_singleton].
      intros x Hx ->%list_elem_of_singleton. done. }
    destruct (IH _ ND') as (N & E & G). split; [exact N|]. split.
    + intros k. rewrite E, dict_incr_keys, elem_of_cons.
      destruct (decide (s ∈ d.*1)) as [Hin|Hin].
      * split; [tauto|]. intros [?|[->|?]]; auto.
      * rewrite elem_of_app, list_elem_of_singleton. tauto.
    + intros k. rewrite G, dict_get_incr, occurrences_cons.
      destruct (decide (k = s)), (decide (s = k)); try lia; congruence.
Qed.

Lemma get_entropy_group_product (samples : list Z) :
  get_entropy samples = group_product samples.
Proof.
  unfold get_entropy, group_product, build_distribution.
  destruct (build_from samples [] (NoDup_nil_2)) as (N & E & G).
  set (d := fold_left _ samples []) in *.
  rewrite product_fold_left, dec_1_1, Qcmult_1_l.
  change (map snd d) with (d.*2). change (map Qc_of_Z d.*2) with (Qc_of_Z <$> d.*2).
  rewrite (dict_values d N), <- list_fmap_compose.
  change (map ?f ?l) with (f <$> l).
  rewrite (list_fmap_ext (Qc_of_Z ∘ dict_get d) (fun s => Qc_of_Z (occurrences s samples)) d.*1).
  2:{ intros i k _. simpl. rewrite G. reflexivity. }
  apply product_perm, fmap_Permutation.
  apply NoDup_Permutation; [exact N|apply NoDup_remove_dups|].
  intros k. rewrite E, elem_of_remove_dups, elem_of_nil. tauto.
Qed.


(** ** The root move selector *)

Lemma Qcltb_lt (x y : Qc) : Qcltb x y = true <-> (x < y)%Qc.
Proof.
  unfold Qcltb. rewrite Qclt_alt. destruct (x ?= y)%Qc; split; congruence.
Qed.

Lemma val_ltb_trans (a b c : val) :
  val_ltb a b = true -> val_ltb b c = true -> val_ltb a c = true.
Proof.
  destruct a, b, c; simpl; try congruence.
  rewrite !Qcltb_lt. apply Qclt_trans.
Qed.

Lemma val_ltb_le_trans (a b c : val) :
  val_ltb a b = true -> val_ltb c b = false -> val_ltb a c = true.
Proof.
  destruct a, b, c; simpl; try congruence.
  intros H1%Qcltb_lt H2. apply Qcltb_lt.
  destruct (Qclt_le_dec q1 q0) as [L|L].
  - apply Qcltb_lt in L. congruence.
  - eapply Qclt_le_trans; eassumption.
Qed.

Lemma val_ltb_irrefl (a : val) : val_ltb a a = false.
Proof.
  destruct a; simpl; try reflexivity.
  destruct (Qcltb q q) eqn:E; [|reflexivity].
  apply Qcltb_lt in E. exfalso. eapply Qclt_not_eq; [exact E|reflexivity].
Qed.

Section Root.
Context `{RulesEngine} {Model : Type}.
Local Abbreviation World := (World Model).
Local Abbreviation M := (M Model).






Lemma for_each_cons {A B} (f : A -> M B) x l (w : World) :
  for_each f (x :: l) w =
    match f x w with
    | (Ok y, w1) =>
        match for_each f l w1 with
        | (Ok ys, w2) => (Ok (y :: ys), w2)
        | (Raise e, w2) => (Raise e, w2)
        end
    | (Raise e, w1) => (Raise e, w1)
    end.
Proof. reflexivity. Qed.




Lemma move_optimization_run (alpha beta : val) (depth' : nat) (w : World) :
  move_optimization alpha beta depth' w =
    match root_loop (alpha_beta_search depth' alpha beta White)
            (legal_moves (position (board w))) None (Fin (dec 10000000000 1)) w with
    | (Ok opt_move, w') => (Ok opt_move, snd (save_position_cache w'))
    | (Raise e, w') => (Raise e, w')
    end.
Proof.
  unfold move_optimization. rewrite run_bind. unfold get_board at 1.
  rewrite run_bind. destruct (root_loop _ _ _ _ w) as [[opt|e] w']; reflexivity.
Qed.


End Root.


(** ** The mobility contribution, the sibling methods, the missing model *)

Section ContributionFacts.
Context `{RulesEngine} {Model : Type}.
Local Abbreviation World := (World Model).
Local Abbreviation M := (M Model).





(** [ChessPipeline.get_mobility] leaves the board as it found it, whoever is
    to move. *)
Lemma pipeline_get_mobility_restores (w : World) :
  snd (pipeline_get_mobility w) = w.
Proof.
  destruct w as [s [p st] d]. unfold pipeline_get_mobility.
  rewrite run_bind. unfold get_board at 1. simpl.
  destruct (turn p); reflexivity.
Qed.

(** [model_valuation] never returns: the features cannot be built. *)
Lemma model_valuation_raises predict_proba (w : World) :
  model_valuation predict_proba w = (Raise AttributeError, w).
Proof. reflexivity. Qed.

(** C7, amended. When a model path is given and no file is there,
    [__init__] prints one line and returns an instance without the attribute
    [model]; nothing is raised to the caller. The failure comes when
    [model_valuation] is called: [AttributeError]. *)
Theorem missing_model_is_printed_not_raised
    (d : Disk Model) (cache_path model_path : string) :
  model_path <> ""%string ->
  model_files d !! model_path = None ->
  init d cache_path (Some model_path) =
    (["ERROR. Model not found. Please check model path again."%string],
     {| position_cache := default ∅ (cache_files d !! cache_path);
        cache_path := cache_path; model := None |})
  /\ forall predict_proba (w : World),
       self w = snd (init d cache_path (Some model_path)) ->
       model_valuation predict_proba w = (Raise AttributeError, w).
Proof.
  intros Hne Hnone. split; [|intros; apply model_valuation_raises].
  unfold init. rewrite Hnone.
  destruct (String.eqb_spec model_path ""); [done|reflexivity].
Qed.

End ContributionFacts.

(** *** The order of the values *)

Lemma val_ltb_antisym (a b : val) :
  val_ltb a b = false -> val_ltb b a = false -> a = b.
Proof.
  destruct a as [|x|], b as [|y|]; simpl; try congruence.
  intros H1 H2. f_equal.
  destruct (Qclt_le_dec x y) as [L|L]; [apply Qcltb_lt in L; congruence|].
  destruct (Qclt_le_dec y x) as [L'|L']; [apply Qcltb_lt in L'; congruence|].
  apply Qcle_antisym; assumption.
Qed.

Lemma val_ltb_asym (a b : val) : val_ltb a b = true -> val_ltb b a = false.
Proof.
  intros L. destruct (val_ltb b a) eqn:E; [|reflexivity].
  pose proof (val_ltb_trans _ _ _ L E) as C. rewrite val_ltb_irrefl in C. discriminate.
Qed.

Lemma val_le_ltb_trans (a b c : val) :
  val_ltb b a = false -> val_ltb b c = true -> val_ltb a c = true.
Proof.
  intros L1 L2. destruct (val_ltb a c) eqn:E; [reflexivity|].
  pose proof (val_ltb_le_trans _ _ _ L2 E) as C. congruence.
Qed.

Lemma val_le_trans (a b c : val) :
  val_ltb b a = false -> val_ltb c b = false -> val_ltb c a = false.
Proof.
  intros L1 L2. destruct (val_ltb c a) eqn:E; [|reflexivity].
  pose proof (val_ltb_le_trans _ _ _ E L1) as C. congruence.
Qed.

(** *** The pruning loop over a total order *)

Section Pruning.
Context {T X : Type} (lt : T -> T -> bool).
Hypothesis lt_irrefl : forall a, lt a a = false.
Hypothesis lt_trans : forall a b c, lt a b = true -> lt b c = true -> lt a c = true.
Hypothesis lt_antisym : forall a b, lt a b = false -> lt b a = false -> a = b.
Local Abbreviation better := (better lt).
Local Abbreviation prune := (prune lt).
Local Abbreviation stands_for := (stands_for lt).

Lemma lt_le_trans a b c : lt a b = true -> lt c b = false -> lt a c = true.
Proof using T lt lt_antisym lt_trans.
  intros L1 L2. destruct (lt a c) eqn:E; [reflexivity|].
  destruct (lt c a) eqn:E'.
  - rewrite (lt_trans _ _ _ E' L1) in L2. discriminate.
  - rewrite (lt_antisym _ _ E E') in L1. congruence.
Qed.

Lemma le_lt_trans a b c : lt b a = false -> lt b c = true -> lt a c = true.
Proof using T lt lt_antisym lt_trans.
  intros L1 L2. destruct (lt a c) eqn:E; [reflexivity|].
  pose proof (lt_le_trans _ _ _ L2 E). congruence.
Qed.

Lemma lt_asym a b : lt a b = true -> lt b a = false.
Proof using T lt lt_irrefl lt_trans.
  intros L. destruct (lt b a) eqn:E; [|reflexivity].
  pose proof (lt_trans _ _ _ L E) as C. rewrite lt_irrefl in C. discriminate.
Qed.

Lemma better_l a b : lt a b = false -> better a b = a.
Proof. unfold better. intros ->. reflexivity. Qed.

Lemma better_r a b : lt a b = true -> better a b = b.
Proof. unfold better. intros ->. reflexivity. Qed.

Lemma better_comm a b : better a b = better b a.
Proof using T lt lt_antisym lt_irrefl lt_trans.
  unfold better. destruct (lt a b) eqn:E1, (lt b a) eqn:E2; try reflexivity.
  - rewrite (lt_asym _ _ E1) in E2. discriminate.
  - apply lt_antisym; assumption.
Qed.

Lemma better_assoc a b c : better (better a b) c = better a (better b c).
Proof using T lt lt_antisym lt_trans.
  unfold better.
  destruct (lt a b) eqn:E1, (lt b c) eqn:E2; rewrite ?E1, ?E2; try reflexivity.
  - rewrite (lt_trans _ _ _ E1 E2). reflexivity.
  - destruct (lt a c) eqn:E3; [|reflexivity].
    rewrite (le_lt_trans _ _ _ E1 E3) in E2. discriminate.
Qed.

Lemma foldl_better_perm (l1 l2 : list T) :
  l1 ≡ₚ l2 -> forall a, foldl better a l1 = foldl better a l2.
Proof using T lt lt_antisym lt_irrefl lt_trans.
  induction 1 as [|x l l' _ IH|x y l|l l' l'' _ IH1 _ IH2]; intros a; simpl.
  - reflexivity.
  - apply IH.
  - f_equal. rewrite !better_assoc, (better_comm y x). reflexivity.
  - rewrite IH1. apply IH2.
Qed.

Lemma foldl_better_init (l : list T) : forall a b,
  foldl better (better a b) l = better a (foldl better b l).
Proof using T lt lt_antisym lt_trans.
  induction l as [|x l IH]; intros a b; simpl; [reflexivity|].
  rewrite better_assoc. apply IH.
Qed.

(** The loop returns the best value when that lies below the bound, and a
    value not below the bound otherwise. *)
Lemma prune_spec (child : X -> T -> T) (v : X -> T) (bound : T) (xs : list X) :
  (forall x acc, x ∈ xs -> lt acc bound = true ->
                 stands_for acc bound (v x) (child x acc)) ->
  forall acc, lt acc bound = true ->
    let best := foldl better acc (v <$> xs) in
    (lt best bound = true -> prune child xs acc bound = best)
    /\ (lt best bound = false -> lt (prune child xs acc bound) bound = false).
Proof using T X lt lt_antisym lt_irrefl lt_trans.
  induction xs as [|x xs IH]; intros Hc acc Hacc; cbn zeta.
  - simpl. split; [reflexivity|congruence].
  - rewrite fmap_cons. cbn [foldl prune].
    destruct (Hc x acc ltac:(left) Hacc) as (S1 & S2 & S3).
    destruct (lt (v x) bound) eqn:Vb.
    + assert (E : better acc (child x acc) = better acc (v x)).
      { destruct (lt acc (v x)) eqn:Av.
        - rewrite (S1 eq_refl eq_refl). reflexivity.
        - rewrite (better_l _ _ Av), (better_l _ _ (S2 eq_refl)). reflexivity. }
      rewrite E.
      assert (Hb : lt (better acc (v x)) bound = true).
      { unfold better. destruct (lt acc (v x)); assumption. }
      rewrite Hb. cbn [negb].
      apply IH; [|exact Hb]. intros y a Hy. apply Hc. right. exact Hy.
    + specialize (S3 eq_refl).
      assert (Hr : lt (better acc (child x acc)) bound = false).
      { unfold better. destruct (lt acc (child x acc)) eqn:C; [exact S3|].
        destruct (lt acc bound) eqn:B; [|reflexivity].
        rewrite (lt_le_trans _ _ _ B S3) in C. discriminate. }
      rewrite Hr. cbn [negb]. split; [|intros _; exact Hr].
      intros Hbest. exfalso.
      assert (Av : lt acc (v x) = true) by (eapply lt_le_trans; eassumption).
      rewrite (better_r _ _ Av) in Hbest.
      rewrite <- (better_l (v x) (v x) (lt_irrefl _)), foldl_better_init in Hbest.
      unfold better at 1 in Hbest.
      destruct (lt (v x) (foldl better (v x) (v <$> xs))) eqn:C.
      * rewrite (lt_trans _ _ _ C Hbest) in Vb. discriminate.
      * congruence.
Qed.

(** Hence the loop stands for the best of the values. *)
Lemma prune_stands_for (child : X -> T -> T) (v : X -> T) (bot bound acc : T)
    (xs : list X) :
  (forall a, lt a bot = false) ->
  (forall x acc, x ∈ xs -> lt acc bound = true ->
                 stands_for acc bound (v x) (child x acc)) ->
  lt acc bound = true ->
  stands_for acc bound (foldl better bot (v <$> xs)) (prune child xs acc bound).
Proof using T X lt lt_antisym lt_irrefl lt_trans.
  intros Hbot Hc Hacc.
  destruct (prune_spec child v bound xs Hc acc Hacc) as [P1 P2]. cbn zeta in *.
  set (m := foldl better bot (v <$> xs)) in *.
  assert (E : foldl better acc (v <$> xs) = better acc m).
  { unfold m. rewrite <- foldl_better_init. f_equal.
    symmetry. apply better_l, Hbot. }
  rewrite E in P1, P2. repeat split.
  - intros L1 L2. rewrite (better_r _ _ L1) in P1. auto.
  - intros L1. rewrite (better_l _ _ L1) in P1. rewrite (P1 Hacc). apply lt_irrefl.
  - intros L. apply P2. unfold better. destruct (lt acc m) eqn:C; [exact L|].
    destruct (lt acc bound) eqn:B; [|reflexivity].
    rewrite (lt_le_trans _ _ _ B L) in C. discriminate.
Qed.

End Pruning.

(** *** The game over cached valuations *)

Section CachedGameFacts.
Context `{RulesEngine} {Model : Type}.
Local Abbreviation World := (World Model).
Local Abbreviation M := (M Model).

Section Pure.
Variable c : gmap Z Qc.
Local Abbreviation ordered_moves := (ordered_moves c).
Local Abbreviation game_value := (game_value c).
Local Abbreviation pruned_value := (pruned_value c).

Lemma val_gtb_irrefl a : val_gtb a a = false.
Proof. apply val_ltb_irrefl. Qed.

Lemma val_gtb_trans x y z :
  val_gtb x y = true -> val_gtb y z = true -> val_gtb x z = true.
Proof. unfold val_gtb. intros. eapply val_ltb_trans; eassumption. Qed.

Lemma val_gtb_antisym a b : val_gtb a b = false -> val_gtb b a = false -> a = b.
Proof. unfold val_gtb. intros. apply val_ltb_antisym; assumption. Qed.

Lemma stands_for_flip (a b v r : val) :
  stands_for val_ltb a b v r <-> stands_for val_gtb b a v r.
Proof. unfold stands_for, val_gtb. tauto. Qed.

Lemma insert_by_perm before x (l : list (Move * Qc)) :
  insert_by before x l ≡ₚ x :: l.
Proof.
  induction l as [|y l IH]; simpl; [reflexivity|].
  destruct (before (snd y) (snd x)); [|reflexivity].
  rewrite IH. apply perm_swap.
Qed.

Lemma sort_by_perm before (l : list (Move * Qc)) : sort_by before l ≡ₚ l.
Proof.
  unfold sort_by. induction l as [|x l IH]; simpl; [reflexivity|].
  rewrite insert_by_perm, IH. reflexivity.
Qed.

Lemma ordered_moves_perm reverse p : ordered_moves reverse p ≡ₚ legal_moves p.
Proof.
  unfold ordered_moves. change (map fst ?l) with (l.*1).
  rewrite sort_by_perm. rewrite fst_zip; [reflexivity|].
  rewrite length_map. reflexivity.
Qed.

(** Pruning is sound: in its window, the search stands for the minimax
    value. *)
Lemma pruned_value_stands_for (depth : nat) :
  forall player alpha beta p,
    val_ltb alpha beta = true ->
    stands_for val_ltb alpha beta (game_value depth player p)
               (pruned_value depth alpha beta player p).
Proof.
  induction depth as [|d IH]; intros player alpha beta p Hab.
  - simpl. unfold stands_for. tauto.
  - destruct player; cbn [game_value pruned_value].
    + rewrite <- (foldl_better_perm val_ltb val_ltb_irrefl val_ltb_trans val_ltb_antisym
                   _ _ (fmap_Permutation _ _ _ (ordered_moves_perm true p))).
      apply (prune_stands_for val_ltb val_ltb_irrefl val_ltb_trans val_ltb_antisym).
      * intros a. destruct a; reflexivity.
      * intros m a _ Ha. apply IH. exact Ha.
      * exact Hab.
    + apply stands_for_flip.
      rewrite <- (foldl_better_perm val_gtb val_gtb_irrefl val_gtb_trans val_gtb_antisym
                   _ _ (fmap_Permutation _ _ _ (ordered_moves_perm false p))).
      apply (prune_stands_for val_gtb val_gtb_irrefl val_gtb_trans val_gtb_antisym).
      * intros a. destruct a; reflexivity.
      * intros m b _ Hb. apply stands_for_flip. apply IH. exact Hb.
      * exact Hab.
Qed.

Lemma pruned_value_unbounded (depth : nat) (player : Player) (p : Position) :
  pruned_value depth NegInf PosInf player p = game_value depth player p.
Proof.
  destruct (pruned_value_stands_for depth player NegInf PosInf p eq_refl)
    as (S1 & S2 & S3).
  destruct (game_value depth player p) as [|v|] eqn:E.
  - specialize (S2 eq_refl). destruct (pruned_value _ _ _ _ _); done.
  - apply S1; reflexivity.
  - specialize (S3 eq_refl). destruct (pruned_value _ _ _ _ _); done.
Qed.

End Pure.

Lemma push_run (m : Move) (w : World) : push m w = (Ok tt, entered w m).
Proof. reflexivity. Qed.

Lemma pop_entered (m : Move) (w : World) : pop (entered w m) = (Ok m, w).
Proof. destruct w as [s [p st] d]. reflexivity. Qed.

Lemma bracket_pure {A B} (m : Move) (search : M A) (k : A -> M B) (w : World) (a : A) :
  search (entered w m) = (Ok a, entered w m) ->
  (push m;; (v ← search; pop;; k v)) w = k a w.
Proof.
  intros E. rewrite run_bind, push_run, run_bind, E, run_bind, pop_entered.
  reflexivity.
Qed.

Lemma heuristic_valuation_cached (w : World) :
  is_cached (cache_of w) (position (board w)) = true ->
  heuristic_valuation w = (Ok (cached_value (cache_of w) (position (board w))), w).
Proof.
  unfold is_cached, cached_value. intros C. apply heuristic_valuation_hit.
  destruct (cache_of w !! zobrist_hash (position (board w))); [reflexivity|discriminate].
Qed.

Lemma evaluate_move_cached (m : Move) (w : World) :
  is_cached (cache_of w) (play (position (board w)) m) = true ->
  evaluate_move m w = (Ok (cached_value (cache_of w) (play (position (board w)) m)), w).
Proof.
  intros C. unfold evaluate_move.
  rewrite (bracket_pure m heuristic_valuation (fun v => mret v) w
             (cached_value (cache_of w) (play (position (board w)) m))).
  - reflexivity.
  - apply (heuristic_valuation_cached (entered w m)), C.
Qed.

Lemma for_each_pure {A B} (f : A -> M B) (g : A -> B) (l : list A) (w : World) :
  (forall x, x ∈ l -> f x w = (Ok (g x), w)) ->
  for_each f l w = (Ok (map g l), w).
Proof.
  induction l as [|x l IH]; intros Hf; [reflexivity|].
  rewrite for_each_cons, Hf by left. rewrite IH; [reflexivity|].
  intros y Hy. apply Hf. right. exact Hy.
Qed.

Lemma covered_children (c : gmap Z Qc) (d : nat) (p : Position) (m : Move) :
  covered c (S d) p = true -> m ∈ legal_moves p ->
  is_cached c (play p m) = true /\ covered c d (play p m) = true.
Proof.
  cbn [covered]. rewrite forallb_forall. intros Hall Hm.
  apply andb_prop, Hall, list_elem_of_In, Hm.
Qed.

Lemma sorted_moves_cached (reverse : bool) (d : nat) (w : World) :
  covered (cache_of w) (S d) (position (board w)) = true ->
  sorted_moves reverse w =
    (Ok (ordered_moves (cache_of w) reverse (position (board w))), w).
Proof.
  intros C. unfold sorted_moves. rewrite run_bind. unfold get_board at 1.
  rewrite run_bind.
  rewrite (for_each_pure evaluate_move
             (fun m => cached_value (cache_of w) (play (position (board w)) m))).
  - reflexivity.
  - intros m Hm. apply evaluate_move_cached. eapply covered_children; eassumption.
Qed.

Lemma white_loop_pure (search : val -> val -> M val) (child : Move -> val -> val -> val)
    (moves : list Move) (w : World) :
  (forall m a b, m ∈ moves -> search a b (entered w m) = (Ok (child m a b), entered w m)) ->
  forall alpha beta,
    white_loop search moves alpha beta w =
      (Ok (prune val_ltb (fun m a => child m a beta) moves alpha beta), w).
Proof.
  induction moves as [|m ms IH]; intros Hs alpha beta; [reflexivity|].
  cbn [white_loop prune].
  rewrite (bracket_pure m (search alpha beta) _ w (child m alpha beta))
    by (apply Hs; left).
  unfold better, val_geb.
  destruct (negb (val_ltb _ beta)); [reflexivity|].
  apply IH. intros m' a b Hm'. apply Hs. right. exact Hm'.
Qed.

Lemma black_loop_pure (search : val -> val -> M val) (child : Move -> val -> val -> val)
    (moves : list Move) (w : World) :
  (forall m a b, m ∈ moves -> search a b (entered w m) = (Ok (child m a b), entered w m)) ->
  forall alpha beta,
    black_loop search moves alpha beta w =
      (Ok (prune val_gtb (fun m b => child m alpha b) moves beta alpha), w).
Proof.
  induction moves as [|m ms IH]; intros Hs alpha beta; [reflexivity|].
  cbn [black_loop prune].
  rewrite (bracket_pure m (search alpha beta) _ w (child m alpha beta))
    by (apply Hs; left).
  unfold better, val_geb, val_gtb.
  destruct (negb (val_ltb alpha _)); [reflexivity|].
  apply IH. intros m' a b Hm'. apply Hs. right. exact Hm'.
Qed.

Lemma alpha_beta_search_cached (depth : nat) :
  forall alpha beta player (w : World),
    covered (cache_of w) depth (position (board w)) = true ->
    alpha_beta_search depth alpha beta player w =
      (Ok (pruned_value (cache_of w) depth alpha beta player (position (board w))), w).
Proof.
  induction depth as [|d IH]; intros alpha beta player w C.
  - cbn [alpha_beta_search pruned_value]. rewrite run_bind.
    rewrite heuristic_valuation_cached by exact C. reflexivity.
  - cbn [alpha_beta_search pruned_value]. destruct player.
    + rewrite run_bind, (sorted_moves_cached true d w C).
      apply (white_loop_pure _
               (fun m a b => pruned_value (cache_of w) d a b Black
                               (play (position (board w)) m))).
      intros m a b Hm. apply (IH a b Black (entered w m)).
      eapply covered_children; [exact C|].
      rewrite <- (ordered_moves_perm (cache_of w) true). exact Hm.
    + rewrite run_bind, (sorted_moves_cached false d w C).
      apply (black_loop_pure _
               (fun m a b => pruned_value (cache_of w) d a b White
                               (play (position (board w)) m))).
      intros m a b Hm. apply (IH a b White (entered w m)).
      eapply covered_children; [exact C|].
      rewrite <- (ordered_moves_perm (cache_of w) false). exact Hm.
Qed.

Lemma max_loop_pure (search : M val) (v : Move -> val) (moves : list Move) (w : World) :
  (forall m, m ∈ moves -> search (entered w m) = (Ok (v m), entered w m)) ->
  forall best,
    max_loop search moves best w = (Ok (foldl (better val_ltb) best (v <$> moves)), w).
Proof.
  induction moves as [|m ms IH]; intros Hs best; [reflexivity|].
  cbn [max_loop]. rewrite fmap_cons. cbn [foldl].
  rewrite (bracket_pure m search _ w (v m)) by (apply Hs; left).
  apply IH. intros m' Hm'. apply Hs. right. exact Hm'.
Qed.

Lemma min_loop_pure (search : M val) (v : Move -> val) (moves : list Move) (w : World) :
  (forall m, m ∈ moves -> search (entered w m) = (Ok (v m), entered w m)) ->
  forall best,
    min_loop search moves best w = (Ok (foldl (better val_gtb) best (v <$> moves)), w).
Proof.
  induction moves as [|m ms IH]; intros Hs best; [reflexivity|].
  cbn [min_loop]. rewrite fmap_cons. cbn [foldl].
  rewrite (bracket_pure m search _ w (v m)) by (apply Hs; left).
  apply IH. intros m' Hm'. apply Hs. right. exact Hm'.
Qed.

Lemma covered_leaves (c : gmap Z Qc) (d : nat) (p : Position) (m : Move) :
  covered c (S d) p = true -> m ∈ legal_moves p -> covered c d (play p m) = true.
Proof. intros C Hm. eapply covered_children; eassumption. Qed.

Lemma minimax_cached (depth : nat) :
  forall player (w : World),
    covered (cache_of w) depth (position (board w)) = true ->
    minimax depth player w =
      (Ok (game_value (cache_of w) depth player (position (board w))), w).
Proof.
  induction depth as [|d IH]; intros player w C.
  - cbn [minimax game_value]. rewrite run_bind.
    rewrite heuristic_valuation_cached by exact C. reflexivity.
  - cbn [minimax game_value]. rewrite run_bind. unfold get_board at 1.
    destruct player.
    + apply (max_loop_pure _
               (fun m => game_value (cache_of w) d Black (play (position (board w)) m))).
      intros m Hm. apply (IH Black (entered w m)). eapply covered_leaves; eassumption.
    + apply (min_loop_pure _
               (fun m => game_value (cache_of w) d White (play (position (board w)) m))).
      intros m Hm. apply (IH White (entered w m)). eapply covered_leaves; eassumption.
Qed.

End CachedGameFacts.

(** ** More about the search, the cache and the board *)

Section SearchFacts.
Context `{RulesEngine} {Model : Type}.
Local Abbreviation World := (World Model).
Local Abbreviation M := (M Model).

Lemma pop_frame (w : World) (m : Move) (p : Position) (st : list (Move * Position)) :
  move_stack (board w) = (m, p) :: st ->
  pop w = (Ok m, with_board w {| position := p; move_stack := st |}).
Proof.
  intros S. unfold pop. rewrite run_bind. unfold get_board at 1.
  rewrite S. reflexivity.
Qed.

Lemma with_board_entered (w : World) (m : Move) :
  with_board (entered w m)
    {| position := position (board w); move_stack := move_stack (board w) |} = w.
Proof. destruct w as [s [p st] d]. reflexivity. Qed.

(** X1. From depth 1 on, whatever alpha, beta, the player and the state, the
    search returns a value (it raises nothing), leaves the board exactly as
    it found it, and keeps every entry of the position cache. *)
Theorem alpha_beta_search_returns_and_restores
    (depth' : nat) (alpha beta : val) (player : Player) (w : World) :
  exists v w',
    alpha_beta_search (S depth') alpha beta player w = (Ok v, w')
    /\ board w' = board w
    /\ cache_of w ⊆ cache_of w'.
Proof.
  destruct (proj2 (alpha_beta_search_frames (S depth') alpha beta player)
              ltac:(discriminate) w) as (v & w' & E & B).
  exists v, w'. split; [exact E|]. split; [exact B|].
  pose proof (grows_alpha_beta_search (S depth') alpha beta player w) as G.
  rewrite E in G. exact G.
Qed.

Lemma evaluate_move_run (m : Move) (w : World) :
  exists v w',
    evaluate_move m w = (Ok v, w')
    /\ board w' = board w
    /\ cache_of w' !! zobrist_hash (play (position (board w)) m) = Some v.
Proof.
  unfold evaluate_move. rewrite run_bind, push_run, run_bind.
  set (w1 := entered w m).
  assert (S1 : move_stack (board w1) = (m, position (board w)) :: move_stack (board w))
    by reflexivity.
  destruct (position_cache (self w1) !! zobrist_hash (position (board w1)))
    as [v|] eqn:E.
  - rewrite (heuristic_valuation_hit w1 v E), run_bind, (pop_frame w1 _ _ _ S1).
    exists v, w. unfold w1. rewrite with_board_entered.
    split; [reflexivity|]. split; [reflexivity|exact E].
  - assert (Hb : turn (position (board w1)) = true \/ move_stack (board w1) <> [])
      by (right; rewrite S1; discriminate).
    rewrite (heuristic_valuation_miss w1 E Hb), run_bind.
    set (v := computed_valuation (board w1)).
    set (w2 := with_cache _ _).
    assert (S2 : exists m1, move_stack (board w2)
                            = (m1, position (board w)) :: move_stack (board w)).
    { unfold w2. cbn [board with_cache with_board]. unfold board_after_mobility.
      destruct (turn (position (board w1))); rewrite S1; eauto. }
    destruct S2 as [m1 S2]. rewrite (pop_frame w2 _ _ _ S2).
    eexists v, _. split; [reflexivity|]. split.
    + destruct w as [s [p st] d]. reflexivity.
    + unfold w2, cache_of. cbn [self with_board with_cache position_cache].
      apply lookup_insert_eq.
Qed.

(** X2. [evaluate_move] always returns, whoever is to move: it leaves the
    board as it found it, and the value it returns is the one the cache then
    holds for the position after the move. *)
Theorem evaluate_move_returns_the_cached_value (m : Move) (w : World) :
  exists v w',
    evaluate_move m w = (Ok v, w')
    /\ board w' = board w
    /\ cache_of w' !! zobrist_hash (play (position (board w)) m) = Some v.
Proof. exact (evaluate_move_run m w). Qed.


(** X5. When the cache holds every position the search evaluates, the
    search with alpha = -inf and beta = +inf and the exhaustive minimax return
    the same value and leave the same state: ordering and cutoff change
    nothing. *)
Theorem alpha_beta_search_is_minimax_on_cached_positions
    (depth : nat) (player : Player) (w : World) :
  covered (cache_of w) depth (position (board w)) = true ->
  alpha_beta_search depth NegInf PosInf player w = minimax depth player w.
Proof.
  intros C. rewrite alpha_beta_search_cached, minimax_cached by exact C.
  rewrite pruned_value_unbounded. reflexivity.
Qed.

(** X6. When the cache holds every position the search evaluates and
    alpha < beta, the search returns the minimax value if that lies strictly
    between alpha and beta; a value not above alpha if the minimax value is
    not above alpha; a value not below beta if the minimax value is not below
    beta. The state is left as it was. *)
Theorem alpha_beta_search_stands_for_minimax
    (depth : nat) (alpha beta : val) (player : Player) (w : World) :
  covered (cache_of w) depth (position (board w)) = true ->
  val_ltb alpha beta = true ->
  exists v r,
    minimax depth player w = (Ok v, w)
    /\ alpha_beta_search depth alpha beta player w = (Ok r, w)
    /\ stands_for val_ltb alpha beta v r.
Proof.
  intros C Hab. eexists _, _.
  split; [apply minimax_cached, C|]. split; [apply alpha_beta_search_cached, C|].
  apply pruned_value_stands_for, Hab.
Qed.

(** X7. With White to move, a second evaluation of the board returns the
    value of the first and changes nothing more; the first leaves the board
    as it was. *)
Theorem heuristic_valuation_repeats (w : World) :
  turn (position (board w)) = true ->
  exists v w',
    heuristic_valuation w = (Ok v, w')
    /\ board w' = board w
    /\ heuristic_valuation w' = (Ok v, w').
Proof.
  intros T.
  destruct (position_cache (self w) !! zobrist_hash (position (board w)))
    as [v|] eqn:E.
  - exists v, w. rewrite (heuristic_valuation_hit w v E). auto.
  - rewrite (heuristic_valuation_miss w E (or_introl T)).
    eexists _, _. split; [reflexivity|].
    assert (B : board_after_mobility (board w) = board w)
      by (unfold board_after_mobility; rewrite T; reflexivity).
    split.
    + cbn [board with_cache with_board]. exact B.
    + apply heuristic_valuation_hit.
      unfold cache_of. cbn [self board with_board with_cache position_cache].
      rewrite B. apply lookup_insert_eq.
Qed.

(** X8. [heuristic_valuation] raises in one case only: no valuation in the
    cache, Black to move and no move on the stack. In every other state it
    returns a value. *)
Theorem heuristic_valuation_raises_only_with_nothing_to_pop (w : World) :
  (exists e w', heuristic_valuation w = (Raise e, w')) <-> nothing_to_pop w.
Proof.
  unfold nothing_to_pop, cache_of. split.
  - intros (e & w' & E).
    destruct (position_cache (self w) !! zobrist_hash (position (board w)))
      as [v|] eqn:C.
    { rewrite (heuristic_valuation_hit w v C) in E. discriminate. }
    split; [reflexivity|].
    destruct (turn (position (board w))) eqn:T.
    { rewrite (heuristic_valuation_miss w C (or_introl T)) in E. discriminate. }
    split; [reflexivity|].
    destruct (move_stack (board w)) as [|f st] eqn:S; [reflexivity|].
    assert (Hb : turn (position (board w)) = true \/ move_stack (board w) <> [])
      by (right; rewrite S; discriminate).
    rewrite (heuristic_valuation_miss w C Hb) in E. discriminate.
  - intros (C & T & S). exists IndexError, w.
    unfold heuristic_valuation. rewrite run_bind. unfold get_board at 1.
    rewrite run_bind. unfold get_cache at 1. rewrite C.
    unfold get_heuristic_features.
    rewrite run_bind, (run_bind get_board). unfold get_board at 1.
    rewrite (run_bind get_mobility_features).
    rewrite get_mobility_features_black_empty by assumption.
    reflexivity.
Qed.

(** X9. With Black to move, a move on the stack and no valuation in the
    cache, the evaluation returns a value and leaves another board: the last
    move is gone, and a null move stands on the position that move was made
    from. *)
Theorem heuristic_valuation_swaps_last_move_for_null
    (w : World) (m : Move) (p : Position) (st : list (Move * Position)) :
  turn (position (board w)) = false ->
  move_stack (board w) = (m, p) :: st ->
  cache_of w !! zobrist_hash (position (board w)) = None ->
  exists v w',
    heuristic_valuation w = (Ok v, w')
    /\ board w' = {| position := play p null; move_stack := (null, p) :: st |}.
Proof.
  intros T S C.
  assert (Hb : turn (position (board w)) = true \/ move_stack (board w) <> [])
    by (right; rewrite S; discriminate).
  rewrite (heuristic_valuation_miss w C Hb). eexists _, _.
  split; [reflexivity|].
  cbn [board with_cache with_board]. unfold board_after_mobility.
  rewrite T, S. reflexivity.
Qed.

(** X10. A cache miss adds exactly one entry to the cache: the value
    returned, under the hash the board had when the evaluation was called. *)
Theorem heuristic_valuation_miss_adds_one_entry (w : World) :
  cache_of w !! zobrist_hash (position (board w)) = None ->
  (turn (position (board w)) = true \/ move_stack (board w) <> []) ->
  exists v w',
    heuristic_valuation w = (Ok v, w')
    /\ cache_of w' = <[zobrist_hash (position (board w)) := v]> (cache_of w)
    /\ size (cache_of w') = S (size (cache_of w)).
Proof.
  intros C Hb. rewrite (heuristic_valuation_miss w C Hb). eexists _, _.
  split; [reflexivity|]. split; [reflexivity|].
  unfold cache_of. cbn [self with_board with_cache position_cache].
  apply map_size_insert_None, C.
Qed.

End SearchFacts.

(** ** The ordering pass *)

Lemma Qcltb_asym (x y : Qc) : Qcltb x y = true -> Qcltb y x = false.
Proof.
  intros L%Qcltb_lt. destruct (Qcltb y x) eqn:E; [|reflexivity].
  apply Qcltb_lt in E. exfalso. eapply Qclt_not_eq; [|reflexivity].
  eapply Qclt_trans; eassumption.
Qed.

Lemma Qcltb_ge_trans (x y z : Qc) :
  Qcltb x y = false -> Qcltb y z = false -> Qcltb x z = false.
Proof.
  intros L1 L2. destruct (Qcltb x z) eqn:E; [|reflexivity].
  apply Qcltb_lt in E.
  destruct (Qclt_le_dec x y) as [L|L]; [apply Qcltb_lt in L; congruence|].
  destruct (Qclt_le_dec y z) as [L'|L']; [apply Qcltb_lt in L'; congruence|].
  exfalso. eapply Qclt_not_le; [exact E|]. eapply Qcle_trans; eassumption.
Qed.

Section OrderingFacts.
Context `{RulesEngine} {Model : Type}.
Local Abbreviation World := (World Model).
Local Abbreviation M := (M Model).

Lemma insert_by_elem (before : Qc -> Qc -> bool) (x z : Move * Qc) (l : list (Move * Qc)) :
  z ∈ insert_by before x l -> z = x \/ z ∈ l.
Proof.
  intros Hz. rewrite (insert_by_perm before x l) in Hz.
  apply elem_of_cons in Hz. exact Hz.
Qed.

Lemma insert_by_sorted (before : Qc -> Qc -> bool) (x : Move * Qc) (l : list (Move * Qc)) :
  (forall a b, before a b = true -> before b a = false) ->
  (forall a b c, before a b = false -> before b c = false -> before a c = false) ->
  StronglySorted (may_precede before) l ->
  StronglySorted (may_precede before) (insert_by before x l).
Proof.
  intros Hasym Hnt. induction 1 as [|y l Hl IH Hy]; simpl.
  - repeat constructor.
  - destruct (before (snd y) (snd x)) eqn:E.
    + constructor; [exact IH|].
      apply Forall_forall. intros z Hz. apply insert_by_elem in Hz.
      destruct Hz as [->|Hz].
      * unfold may_precede. apply Hasym, E.
      * rewrite Forall_forall in Hy. apply Hy, Hz.
    + constructor; [constructor; assumption|].
      constructor; [exact E|].
      apply Forall_forall. intros z Hz.
      rewrite Forall_forall in Hy. specialize (Hy z Hz).
      unfold may_precede in *. eapply Hnt; eassumption.
Qed.

Lemma sort_by_sorted (before : Qc -> Qc -> bool) (l : list (Move * Qc)) :
  (forall a b, before a b = true -> before b a = false) ->
  (forall a b c, before a b = false -> before b c = false -> before a c = false) ->
  StronglySorted (may_precede before) (sort_by before l).
Proof.
  intros Hasym Hnt. unfold sort_by. induction l as [|x l IH]; simpl.
  - constructor.
  - apply insert_by_sorted; assumption.
Qed.

Lemma StronglySorted_fst (R : Move * Qc -> Move * Qc -> Prop) (R' : Move -> Move -> Prop)
    (l : list (Move * Qc)) :
  (forall x y, x ∈ l -> y ∈ l -> R x y -> R' (fst x) (fst y)) ->
  StronglySorted R l -> StronglySorted R' (l.*1).
Proof.
  intros HR. induction 1 as [|x l Hl IH Hx]; [constructor|].
  rewrite fmap_cons. constructor.
  - apply IH. intros a b Ha Hb. apply HR; right; assumption.
  - apply Forall_forall. intros z Hz. apply list_elem_of_fmap in Hz.
    destruct Hz as (y & -> & Hy). apply HR; [left|right; exact Hy|].
    rewrite Forall_forall in Hx. apply Hx, Hy.
Qed.

Lemma for_each_evaluate_move (moves : list Move) : forall w : World,
  exists keys w',
    for_each evaluate_move moves w = (Ok keys, w')
    /\ board w' = board w
    /\ cache_of w ⊆ cache_of w'
    /\ keys = map (cached_key w') moves.
Proof.
  induction moves as [|m ms IH]; intros w.
  - exists [], w. repeat split; reflexivity.
  - rewrite for_each_cons.
    destruct (evaluate_move_run m w) as (v & w1 & E & B & Cv).
    pose proof (grows_evaluate_move m w) as G. rewrite E in G. cbn [snd] in G.
    rewrite E. destruct (IH w1) as (keys & w' & E' & B' & G' & K).
    rewrite E'. exists (v :: keys), w'.
    split; [reflexivity|]. split; [congruence|]. split; [etrans; eassumption|].
    cbn [map]. f_equal; [|exact K].
    unfold cached_key, cached_value. rewrite B', B.
    rewrite (lookup_weaken _ _ _ _ Cv G'). reflexivity.
Qed.

(** X12. The ordering pass always returns, leaves the board as it was, and
    returns every legal move exactly once, in the order of the one-ply
    valuations the cache then holds: not rising for White
    ([reverse=True]), not falling for Black. *)
Theorem sorted_moves_orders_the_legal_moves (reverse : bool) (w : World) :
  exists l w',
    sorted_moves reverse w = (Ok l, w')
    /\ board w' = board w
    /\ l ≡ₚ legal_moves (position (board w))
    /\ in_order reverse (cached_key w') l.
Proof.
  unfold sorted_moves. rewrite run_bind. unfold get_board at 1. rewrite run_bind.
  destruct (for_each_evaluate_move (legal_moves (position (board w))) w)
    as (keys & w' & E & B & _ & K).
  rewrite E. eexists _, w'. split; [reflexivity|]. split; [exact B|].
  set (before := if reverse then _ else _).
  set (moves := legal_moves (position (board w))) in *.
  assert (Hlen : (length moves <= length keys)%nat) by (rewrite K, length_map; lia).
  split.
  - change (map fst ?l) with (l.*1).
    rewrite (sort_by_perm before), (fst_zip _ _ Hlen). reflexivity.
  - unfold in_order. change (map fst ?l) with (l.*1).
    assert (Hasym : forall a b, before a b = true -> before b a = false).
    { unfold before. destruct reverse; intros a b; apply Qcltb_asym. }
    assert (Hnt : forall a b c,
               before a b = false -> before b c = false -> before a c = false).
    { unfold before. destruct reverse; intros a b c L1 L2.
      - eapply Qcltb_ge_trans; eassumption.
      - eapply Qcltb_ge_trans; eassumption. }
    eapply StronglySorted_fst; [|apply sort_by_sorted; assumption].
    intros x y Hx Hy R.
    assert (Hk : forall z, z ∈ sort_by before (zip moves keys) ->
                           snd z = cached_key w' (fst z)).
    { intros z Hz. rewrite (sort_by_perm before) in Hz.
      rewrite K in Hz. change (map ?f ?l) with (f <$> l) in Hz.
      apply list_elem_of_lookup in Hz as [i Hi].
      apply lookup_zip_with_Some in Hi as (a & b & -> & Ha & Hb).
      rewrite list_lookup_fmap, Ha in Hb. injection Hb as <-. reflexivity. }
    unfold may_precede in R. rewrite (Hk x Hx), (Hk y Hy) in R.
    unfold before in R. destruct reverse; exact R.
Qed.

End OrderingFacts.

(** ** The bounds of the search *)

Section BoundFacts.
Context `{RulesEngine} {Model : Type}.
Local Abbreviation World := (World Model).
Local Abbreviation M := (M Model).

Lemma white_loop_at_least (search : val -> val -> M val) (moves : list Move) :
  forall alpha beta (w : World) r w',
    white_loop search moves alpha beta w = (Ok r, w') -> val_ltb r alpha = false.
Proof.
  induction moves as [|m ms IH]; intros alpha beta w r w' E.
  - injection E as <- _. apply val_ltb_irrefl.
  - cbn [white_loop] in E. rewrite run_bind in E.
    destruct (push m w) as [[[]|e] w1]; [|discriminate]. rewrite run_bind in E.
    destruct (search alpha beta w1) as [[v|e] w2]; [|discriminate].
    rewrite run_bind in E.
    destruct (pop w2) as [[m'|e] w3]; [|discriminate].
    cbv zeta in E.
    assert (Ha : val_ltb (if val_ltb alpha v then v else alpha) alpha = false).
    { destruct (val_ltb alpha v) eqn:L; [apply val_ltb_asym, L|apply val_ltb_irrefl]. }
    destruct (val_geb (if val_ltb alpha v then v else alpha) beta).
    + injection E as <- _. exact Ha.
    + apply IH in E. eapply val_le_trans; eassumption.
Qed.

Lemma black_loop_at_most (search : val -> val -> M val) (moves : list Move) :
  forall alpha beta (w : World) r w',
    black_loop search moves alpha beta w = (Ok r, w') -> val_ltb beta r = false.
Proof.
  induction moves as [|m ms IH]; intros alpha beta w r w' E.
  - injection E as <- _. apply val_ltb_irrefl.
  - cbn [black_loop] in E. rewrite run_bind in E.
    destruct (push m w) as [[[]|e] w1]; [|discriminate]. rewrite run_bind in E.
    destruct (search alpha beta w1) as [[v|e] w2]; [|discriminate].
    rewrite run_bind in E.
    destruct (pop w2) as [[m'|e] w3]; [|discriminate].
    cbv zeta in E.
    assert (Hb : val_ltb beta (if val_ltb v beta then v else beta) = false).
    { destruct (val_ltb v beta) eqn:L; [apply val_ltb_asym, L|apply val_ltb_irrefl]. }
    destruct (val_geb alpha (if val_ltb v beta then v else beta)).
    + injection E as <- _. exact Hb.
    + apply IH in E. eapply val_le_trans; eassumption.
Qed.

(** X13. From depth 1 on, the value returned for White is never below the
    alpha the search was called with, and the value returned for Black is
    never above the beta it was called with, in any state and for any alpha
    and beta. *)
Theorem alpha_beta_search_stays_on_its_side
    (depth' : nat) (alpha beta : val) (player : Player) (w : World) :
  exists r w',
    alpha_beta_search (S depth') alpha beta player w = (Ok r, w')
    /\ match player with
       | White => val_ltb r alpha = false
       | Black => val_ltb beta r = false
       end.
Proof.
  destruct (proj2 (alpha_beta_search_frames (S depth') alpha beta player)
              ltac:(discriminate) w) as (r & w' & E & _).
  exists r, w'. split; [exact E|].
  cbn [alpha_beta_search] in E. destruct player; rewrite run_bind in E.
  - destruct (sorted_moves true w) as [[moves|e] w1]; [|discriminate].
    eapply white_loop_at_least. exact E.
  - destruct (sorted_moves false w) as [[moves|e] w1]; [|discriminate].
    eapply black_loop_at_most. exact E.
Qed.

(** X16. [ChessPipeline.get_mobility] always returns the number of legal
    moves of White and of Black, the side not to move being counted after a
    null move, and leaves the board and the rest of the state untouched,
    whoever is to move. *)
Theorem pipeline_get_mobility_counts_both_sides (w : World) :
  pipeline_get_mobility w =
    (Ok (if turn (position (board w))
         then (len (legal_moves (position (board w))),
               len (legal_moves (play (position (board w)) null)))
         else (len (legal_moves (play (position (board w)) null)),
               len (legal_moves (position (board w))))), w).
Proof.
  destruct w as [s [p st] d]. unfold pipeline_get_mobility.
  rewrite run_bind. unfold get_board at 1. cbn [board position].
  destruct (turn p); reflexivity.
Qed.

(** X17. [ChessPipeline.get_features] always returns the twelve piece
    counts followed by the two mobility counts, fourteen numbers, and leaves
    the state untouched; the bishop-pair lookup it makes on the way never
    raises. *)
Theorem pipeline_get_features_has_fourteen_entries (w : World) :
  exists white_mobility black_mobility,
    pipeline_get_features w =
      (Ok (pipeline_get_piece_counts (board w) ++ [white_mobility; black_mobility]), w)
    /\ pipeline_get_mobility w = (Ok (white_mobility, black_mobility), w)
    /\ length (pipeline_get_piece_counts (board w) ++ [white_mobility; black_mobility])
       = 14%nat.
Proof.
  destruct w as [s [p st] d].
  set (w := {| self := s; board := {| position := p; move_stack := st |}; disk := d |}).
  assert (Hm : exists mobility, pipeline_get_mobility w = (Ok mobility, w)).
  { unfold pipeline_get_mobility. rewrite run_bind. unfold get_board at 1.
    cbn [board position w]. destruct (turn p); eexists; reflexivity. }
  destruct Hm as [[white_mobility black_mobility] Hm].
  exists white_mobility, black_mobility.
  split; [|split; [exact Hm|reflexivity]].
  unfold pipeline_get_features. rewrite run_bind. unfold get_board at 1.
  rewrite run_bind, Hm. reflexivity.
Qed.

End BoundFacts.

(** ** The distribution of the move origins *)

Lemma sum_Z_from (l : list Z) : forall a, fold_left Z.add l a = a + sum_Z l.
Proof.
  unfold sum_Z. induction l as [|x l IH]; intros a; simpl; [lia|].
  rewrite IH, (IH (0 + x)). lia.
Qed.

Lemma sum_Z_cons (x : Z) (l : list Z) : sum_Z (x :: l) = x + sum_Z l.
Proof. unfold sum_Z at 1. simpl. rewrite sum_Z_from. lia. Qed.

Lemma dict_incr_total (s : Z) (d : list (Z * Z)) :
  sum_Z (map snd (dict_incr s d)) = sum_Z (map snd d) + 1.
Proof.
  induction d as [|[k c] d IH]; [reflexivity|].
  cbn [dict_incr]. destruct (s =? k); cbn [map snd]; rewrite !sum_Z_cons; lia.
Qed.

Lemma build_total (samples : list Z) : forall d : list (Z * Z),
  sum_Z (map snd (fold_left (fun distribution sample => dict_incr sample distribution)
                            samples d))
  = sum_Z (map snd d) + len samples.
Proof.
  induction samples as [|s l IH]; intros d; cbn [fold_left].
  - unfold len. simpl. lia.
  - rewrite IH, dict_incr_total. unfold len. cbn [length]. lia.
Qed.

Lemma dict_get_elem (d : list (Z * Z)) (k c : Z) :
  NoDup d.*1 -> (k, c) ∈ d -> dict_get d k = c.
Proof.
  induction d as [|[k' c'] d IH]; intros ND Hin; [by apply elem_of_nil in Hin|].
  rewrite fmap_cons in ND. cbn [fst] in ND. apply NoDup_cons in ND as [Hk ND].
  rewrite dict_get_cons. apply elem_of_cons in Hin as [[= -> ->]|Hin].
  - rewrite decide_True by reflexivity. reflexivity.
  - destruct (decide (k' = k)) as [->|_]; [|apply IH; assumption].
    exfalso. apply Hk. apply list_elem_of_fmap. exists (k, c). auto.
Qed.

Lemma dict_elem_get (d : list (Z * Z)) (k : Z) :
  k ∈ d.*1 -> (k, dict_get d k) ∈ d.
Proof.
  induction d as [|[k' c'] d IH]; intros Hin; [by apply elem_of_nil in Hin|].
  rewrite fmap_cons in Hin. cbn [fst] in Hin. rewrite dict_get_cons.
  destruct (decide (k' = k)) as [->|Hne]; [left|].
  apply elem_of_cons in Hin as [->|Hin]; [done|]. right. apply IH, Hin.
Qed.

(** X14. [build_distribution] lists every distinct sample once, with the
    number of times it occurs among the samples, and nothing else; the
    counts add up to the number of samples. *)
Theorem build_distribution_counts_occurrences (samples : list Z) :
  NoDup (build_distribution samples).*1
  /\ (forall k c, (k, c) ∈ build_distribution samples
                  <-> k ∈ samples /\ c = occurrences k samples)
  /\ sum_Z (map snd (build_distribution samples)) = len samples.
Proof.
  unfold build_distribution.
  destruct (build_from samples [] (NoDup_nil_2)) as (N & E & G). cbn zeta in *.
  split; [exact N|]. split.
  - intros k c. split.
    + intros Hin.
      assert (Hk : k ∈ samples).
      { destruct (proj1 (E k)) as [Hk|Hk]; [|by apply elem_of_nil in Hk|exact Hk].
        apply list_elem_of_fmap. exists (k, c). auto. }
      split; [exact Hk|].
      rewrite <- (dict_get_elem _ _ _ N Hin), G. reflexivity.
    + intros [Hk ->]. rewrite <- (Z.add_0_l (occurrences k samples)).
      change 0 with (dict_get [] k) at 1. rewrite <- G.
      apply dict_elem_get, E. right. exact Hk.
  - rewrite build_total. reflexivity.
Qed.

Lemma occurrences_perm (s : Z) (l1 l2 : list Z) :
  l1 ≡ₚ l2 -> occurrences s l1 = occurrences s l2.
Proof. intros P. unfold occurrences, len. rewrite P. reflexivity. Qed.

Lemma get_entropy_perm (samples samples' : list Z) :
  samples ≡ₚ samples' -> get_entropy samples = get_entropy samples'.
Proof.
  intros P. rewrite !get_entropy_group_product. unfold group_product.
  change (map ?f ?l) with (f <$> l).
  rewrite (list_fmap_ext (fun s => Qc_of_Z (occurrences s samples))
             (fun s => Qc_of_Z (occurrences s samples')) (remove_dups samples)).
  2:{ intros i s _. rewrite (occurrences_perm s _ _ P). reflexivity. }
  apply product_perm, fmap_Permutation.
  apply NoDup_Permutation; [apply NoDup_remove_dups|apply NoDup_remove_dups|].
  intros s. rewrite !elem_of_remove_dups, P. reflexivity.
Qed.

Lemma nearest_exact (n : Z) : n <= 2 ^ 53 -> nearest n = n.
Proof.
  intros Hn. unfold nearest.
  destruct (n <? 2 ^ 53) eqn:E; [reflexivity|].
  apply Z.ltb_ge in E. assert (n = 2 ^ 53) as -> by lia. vm_compute. reflexivity.
Qed.

Lemma to_double_exact (n : Z) : n <= 2 ^ 53 -> to_double n = Whole n.
Proof.
  intros Hn. unfold to_double. rewrite nearest_exact by exact Hn.
  assert (L : 2 ^ 53 < 2 ^ 1024) by (vm_compute; reflexivity).
  destruct (n <? 2 ^ 1024) eqn:E; [reflexivity|]. apply Z.ltb_ge in E. lia.
Qed.

Lemma Zproduct_pos (l : list Z) : Forall (fun c => 1 <= c) l -> 1 <= Zproduct l.
Proof.
  induction 1 as [|c l Hc _ IH]; unfold Zproduct in *; simpl; [lia|nia].
Qed.

(** While the exact product stays within 2^53 no multiplication rounds. *)
Lemma float_product_exact (counts : list Z) : forall p : Z,
  Forall (fun c => 1 <= c) counts -> 1 <= p -> p * Zproduct counts <= 2 ^ 53 ->
  float_product counts (Whole p) = Returns (Whole (p * Zproduct counts)).
Proof.
  induction counts as [|c l IH]; intros p Hl Hp Hb.
  - unfold Zproduct. simpl. f_equal. f_equal. lia.
  - apply Forall_cons in Hl as [Hc Hl].
    pose proof (Zproduct_pos l Hl) as Hr.
    change (Zproduct (c :: l)) with (c * Zproduct l) in *.
    assert (L : 2 ^ 53 < 2 ^ 1024) by (vm_compute; reflexivity).
    assert (Hcb : c <= 2 ^ 53) by nia.
    assert (Hpc : p * c <= 2 ^ 53) by nia.
    cbn [float_product]. unfold double_times_int.
    rewrite (nearest_exact c Hcb).
    destruct (c <? 2 ^ 1024) eqn:E; [|apply Z.ltb_ge in E; lia].
    rewrite (to_double_exact _ Hpc).
    rewrite IH; [|exact Hl|nia|nia]. do 2 f_equal. lia.
Qed.

Lemma dict_incr_counts (s : Z) (d : list (Z * Z)) :
  Forall (fun c => 1 <= c) (map snd d) ->
  Forall (fun c => 1 <= c) (map snd (dict_incr s d)).
Proof.
  induction d as [|[k c] d IH]; intros Hd; cbn [dict_incr].
  - cbn [map snd]. constructor; [lia|constructor].
  - cbn [map snd] in Hd. apply Forall_cons in Hd as [Hc Hd].
    destruct (s =? k); cbn [map snd]; constructor; auto; lia.
Qed.

Lemma build_distribution_counts (samples : list Z) :
  Forall (fun c => 1 <= c) (map snd (build_distribution samples)).
Proof.
  unfold build_distribution.
  assert (G : forall d : list (Z * Z),
             Forall (fun c => 1 <= c) (map snd d) ->
             Forall (fun c => 1 <= c)
               (map snd (fold_left (fun distribution sample => dict_incr sample distribution)
                                   samples d))).
  { induction samples as [|s l IH]; intros d Hd; cbn [fold_left]; [exact Hd|].
    apply IH, dict_incr_counts, Hd. }
  apply G. constructor.
Qed.

Lemma Z2Qc_product (l : list Z) : product (map Qc_of_Z l) = Qc_of_Z (Zproduct l).
Proof.
  induction l as [|c l IH]; unfold product, Zproduct in *; simpl.
  - symmetry. apply Z2Qc_inj_1.
  - rewrite IH, Z2Qc_inj_mul. reflexivity.
Qed.

(** The exact product is a whole number. *)
Lemma get_entropy_whole (samples : list Z) :
  get_entropy samples = Qc_of_Z (Zproduct (map snd (build_distribution samples))).
Proof.
  unfold get_entropy. rewrite product_fold_left, Z2Qc_product, dec_1_1.
  apply Qcmult_1_l.
Qed.

Lemma get_entropy_double_exact (samples : list Z) :
  (get_entropy samples <= Qc_of_Z (2 ^ 53))%Qc ->
  exists n, get_entropy_double samples = Returns (Whole n)
            /\ get_entropy samples = Qc_of_Z n.
Proof.
  intros Hb. rewrite get_entropy_whole in Hb. apply Z2Qc_inj_le in Hb.
  exists (Zproduct (map snd (build_distribution samples))).
  split; [|apply get_entropy_whole].
  unfold get_entropy_double.
  rewrite float_product_exact; [do 2 f_equal; lia|apply build_distribution_counts|lia|lia].
Qed.

(** X15. While the product of the counts does not exceed 2^53, the float
    product of [get_entropy] is exact and does not depend on the order of
    the samples: two lists that are permutations of each other give the same
    float, the exact product. *)
Theorem get_entropy_ignores_the_order (samples samples' : list Z) :
  samples ≡ₚ samples' ->
  (get_entropy samples <= Qc_of_Z (2 ^ 53))%Qc ->
  exists n,
    get_entropy_double samples = Returns (Whole n)
    /\ get_entropy_double samples' = Returns (Whole n)
    /\ get_entropy samples = Qc_of_Z n
    /\ get_entropy samples' = Qc_of_Z n.
Proof.
  intros P Hb.
  destruct (get_entropy_double_exact samples Hb) as (n & E & V).
  assert (Hb' : (get_entropy samples' <= Qc_of_Z (2 ^ 53))%Qc)
    by (rewrite <- (get_entropy_perm _ _ P); exact Hb).
  destruct (get_entropy_double_exact samples' Hb') as (n' & E' & V').
  assert (n' = n) as ->.
  { apply Z2Qc_inj. rewrite <- V, <- V'. symmetry. apply get_entropy_perm, P. }
  exists n. auto.
Qed.

Lemma product_at_least_one (l : list Qc) :
  Forall (fun q => (Q2Qc 1 <= q)%Qc) l -> (Q2Qc 1 <= product l)%Qc.
Proof.
  induction 1 as [|q l Hq _ IH]; unfold product in *; simpl.
  - apply Qcle_refl.
  - eapply Qcle_trans; [exact IH|].
    rewrite <- (Qcmult_1_l (foldr Qcmult (Q2Qc 1) l)) at 1.
    apply Qcmult_le_compat_r; [exact Hq|].
    eapply Qcle_trans; [|exact IH]. discriminate.
Qed.

(** X18. [get_entropy] is at least 1 for every list of samples: every
    distinct sample counts at least once, and the product starts from 1. *)
Theorem get_entropy_at_least_one (samples : list Z) :
  (Q2Qc 1 <= get_entropy samples)%Qc.
Proof.
  rewrite get_entropy_group_product. unfold group_product.
  change (map ?f ?l) with (f <$> l).
  apply product_at_least_one, Forall_forall.
  intros q Hq%list_elem_of_fmap. destruct Hq as (s & -> & Hs).
  rewrite elem_of_remove_dups in Hs.
  replace (Q2Qc 1) with (Qc_of_Z 1) by apply Z2Qc_inj_1.
  apply (proj1 (Z2Qc_inj_le _ _)).
  unfold occurrences, len.
  assert (Hin : s ∈ filter (fun x => x = s) samples)
    by (apply list_elem_of_filter; split; [reflexivity|exact Hs]).
  destruct (filter (fun x => x = s) samples); [by apply elem_of_nil in Hin|].
  cbn [length]. lia.
Qed.

(** ** What a search leaves in the cache *)

Section ReplyFacts.
Context `{RulesEngine} {Model : Type}.
Local Abbreviation World := (World Model).
Local Abbreviation M := (M Model).

Lemma for_each_evaluate_move_caches (moves : list Move) : forall w : World,
  exists keys w',
    for_each evaluate_move moves w = (Ok keys, w')
    /\ board w' = board w
    /\ forall m, m ∈ moves ->
         is_Some (cache_of w' !! zobrist_hash (play (position (board w)) m)).
Proof.
  induction moves as [|m ms IH]; intros w.
  - exists [], w. repeat split. intros m Hm. by apply elem_of_nil in Hm.
  - rewrite for_each_cons.
    destruct (evaluate_move_run m w) as (v & w1 & E & B & Cv).
    rewrite E. destruct (IH w1) as (keys & w' & E' & B' & C').
    pose proof (grows_for_each evaluate_move ms grows_evaluate_move w1) as G.
    rewrite E' in G. cbn [snd] in G.
    rewrite E'. exists (v :: keys), w'.
    split; [reflexivity|]. split; [congruence|].
    intros m' [->|Hm]%elem_of_cons.
    + exists v. exact (lookup_weaken _ _ _ _ Cv G).
    + rewrite <- B. apply C', Hm.
Qed.

Lemma alpha_beta_search_fills_cache (depth' : nat) (alpha beta : val) (player : Player)
    (w : World) :
  exists v w',
    alpha_beta_search (S depth') alpha beta player w = (Ok v, w')
    /\ board w' = board w
    /\ forall m, m ∈ legal_moves (position (board w)) ->
         is_Some (cache_of w' !! zobrist_hash (play (position (board w)) m)).
Proof.
  destruct (proj2 (alpha_beta_search_frames (S depth') alpha beta player)
              ltac:(discriminate) w) as (v & w' & E & B).
  exists v, w'. split; [exact E|]. split; [exact B|].
  destruct (for_each_evaluate_move_caches (legal_moves (position (board w))) w)
    as (keys & w1 & E1 & B1 & C1).
  intros m Hm. destruct (C1 m Hm) as [q Hq]. exists q.
  refine (lookup_weaken _ _ _ _ Hq _).
  cbn [alpha_beta_search] in E. destruct player; rewrite run_bind in E;
    unfold sorted_moves in E; rewrite run_bind in E; unfold get_board at 1 in E;
    rewrite run_bind, E1 in E.
  - pose proof (grows_white_loop
                  (fun a b => alpha_beta_search depth' a b Black)
                  (map fst (sort_by (fun x y => Qcltb y x)
                              (zip (legal_moves (position (board w))) keys)))
                  (fun a b => grows_alpha_beta_search depth' a b Black)
                  alpha beta w1) as G.
    unfold mret, M_ret in E. rewrite E in G. exact G.
  - pose proof (grows_black_loop
                  (fun a b => alpha_beta_search depth' a b White)
                  (map fst (sort_by Qcltb
                              (zip (legal_moves (position (board w))) keys)))
                  (fun a b => grows_alpha_beta_search depth' a b White)
                  alpha beta w1) as G.
    unfold mret, M_ret in E. rewrite E in G. exact G.
Qed.

(** X19. After a search of depth 1 or more, whatever alpha, beta and the
    player, the cache holds a valuation for every position one legal move
    away from the board. *)
Theorem alpha_beta_search_caches_every_reply
    (depth' : nat) (alpha beta : val) (player : Player) (w : World) :
  exists v w',
    alpha_beta_search (S depth') alpha beta player w = (Ok v, w')
    /\ forall m, m ∈ legal_moves (position (board w)) ->
         is_Some (cache_of w' !! zobrist_hash (play (position (board w)) m)).
Proof.
  destruct (alpha_beta_search_fills_cache depth' alpha beta player w)
    as (v & w' & E & _ & C).
  exists v, w'. split; [exact E|exact C].
Qed.

(** X20. Once a search of depth 1 or more has run on a board, a search of
    depth 1 of the same board with alpha = -inf and beta = +inf returns what
    the exhaustive minimax of depth 1 returns, for either player, and changes
    nothing. *)
Theorem second_search_of_depth_one_is_minimax
    (depth' : nat) (alpha beta : val) (player : Player) (w : World) :
  exists v w',
    alpha_beta_search (S depth') alpha beta player w = (Ok v, w')
    /\ forall player',
         alpha_beta_search 1 NegInf PosInf player' w' = minimax 1 player' w'
         /\ snd (alpha_beta_search 1 NegInf PosInf player' w') = w'.
Proof.
  destruct (alpha_beta_search_fills_cache depth' alpha beta player w)
    as (v & w' & E & B & C).
  exists v, w'. split; [exact E|]. intros player'.
  assert (Cov : covered (cache_of w') 1 (position (board w')) = true).
  { cbn [covered]. apply forallb_forall. intros m Hm%list_elem_of_In.
    rewrite B in Hm. rewrite B. destruct (C m Hm) as [q Hq].
    unfold is_cached. rewrite Hq. reflexivity. }
  rewrite (alpha_beta_search_cached 1 NegInf PosInf player' w' Cov).
  rewrite (minimax_cached 1 player' w' Cov), pruned_value_unbounded.
  split; reflexivity.
Qed.

End ReplyFacts.

(** ** What the search leaves alone *)

Section SurroundingsFacts.
Context `{RulesEngine} {Model : Type}.
Local Abbreviation World := (World Model).
Local Abbreviation M := (M Model).
Local Abbreviation leaves_surroundings := (leaves_surroundings (Model := Model)).

Lemma leaves_ret {A} (a : A) : leaves_surroundings (mret a : M A).
Proof. intros w. reflexivity. Qed.

Lemma leaves_raise {A} (e : exn) : leaves_surroundings (raise e : M A).
Proof. intros w. reflexivity. Qed.

Lemma leaves_bind {A B} (m : M A) (f : A -> M B) :
  leaves_surroundings m -> (forall a, leaves_surroundings (f a)) ->
  leaves_surroundings (m ≫= f).
Proof.
  intros Lm Lf w. unfold mbind, M_bind.
  specialize (Lm w). destruct (m w) as [[a|e] w1]; cbn [snd] in *.
  - rewrite Lf. exact Lm.
  - exact Lm.
Qed.

Lemma leaves_get_board : leaves_surroundings get_board.
Proof. intros w. reflexivity. Qed.

Lemma leaves_set_board b : leaves_surroundings (set_board b).
Proof. intros w. reflexivity. Qed.

Lemma leaves_get_cache : leaves_surroundings get_cache.
Proof. intros w. reflexivity. Qed.

Lemma leaves_set_cache c : leaves_surroundings (set_cache c).
Proof. intros w. reflexivity. Qed.

Lemma leaves_push m : leaves_surroundings (push m).
Proof. apply leaves_bind; [apply leaves_get_board|intros b; apply leaves_set_board]. Qed.

Lemma leaves_pop : leaves_surroundings pop.
Proof.
  apply leaves_bind; [apply leaves_get_board|intros b].
  destruct (move_stack b) as [|[m p] st]; [apply leaves_raise|].
  apply leaves_bind; [apply leaves_set_board|intros _; apply leaves_ret].
Qed.

Lemma leaves_get_mobility_features : leaves_surroundings get_mobility_features.
Proof.
  apply leaves_bind; [apply leaves_get_board|intros b].
  destruct (turn (position b)).
  - apply leaves_bind; [apply leaves_push|intros _].
    apply leaves_bind; [apply leaves_get_board|intros b'].
    apply leaves_bind; [apply leaves_pop|intros _; apply leaves_ret].
  - apply leaves_bind; [apply leaves_pop|intros _].
    apply leaves_bind; [apply leaves_get_board|intros b'].
    apply leaves_bind; [apply leaves_push|intros _; apply leaves_ret].
Qed.

Lemma leaves_get_heuristic_features : leaves_surroundings get_heuristic_features.
Proof.
  apply leaves_bind; [apply leaves_get_board|intros b].
  apply leaves_bind; [apply leaves_get_mobility_features|intros mf].
  apply leaves_bind; [apply leaves_get_board|intros b'; apply leaves_ret].
Qed.

Lemma leaves_weigh counts : forall i v, leaves_surroundings (weigh i counts v).
Proof.
  induction counts as [|c cs IH]; intros i v; simpl; [apply leaves_ret|].
  destruct (piece_values !! i); [apply IH|apply leaves_raise].
Qed.

Lemma leaves_heuristic_valuation : leaves_surroundings heuristic_valuation.
Proof.
  apply leaves_bind; [apply leaves_get_board|intros b]. cbv zeta.
  apply leaves_bind; [apply leaves_get_cache|intros cache].
  destruct (cache !! zobrist_hash (position b)); [apply leaves_ret|].
  apply leaves_bind; [apply leaves_get_heuristic_features|intros [[pc mf] pd]].
  apply leaves_bind; [apply leaves_weigh|intros v].
  apply leaves_bind; [apply leaves_get_cache|intros cache'].
  apply leaves_bind; [apply leaves_set_cache|intros _; apply leaves_ret].
Qed.

Lemma leaves_evaluate_move m : leaves_surroundings (evaluate_move m).
Proof.
  apply leaves_bind; [apply leaves_push|intros _].
  apply leaves_bind; [apply leaves_heuristic_valuation|intros v].
  apply leaves_bind; [apply leaves_pop|intros _; apply leaves_ret].
Qed.

Lemma leaves_for_each {A B} (f : A -> M B) (l : list A) :
  (forall a, leaves_surroundings (f a)) -> leaves_surroundings (for_each f l).
Proof.
  intros Lf. induction l as [|x l IH]; simpl; [apply leaves_ret|].
  apply leaves_bind; [apply Lf|intros y].
  apply leaves_bind; [apply IH|intros ys; apply leaves_ret].
Qed.

Lemma leaves_sorted_moves reverse : leaves_surroundings (sorted_moves reverse).
Proof.
  apply leaves_bind; [apply leaves_get_board|intros b].
  apply leaves_bind; [apply leaves_for_each, leaves_evaluate_move|intros keys].
  apply leaves_ret.
Qed.

Lemma leaves_white_loop (search : val -> val -> M val) moves :
  (forall a b, leaves_surroundings (search a b)) ->
  forall alpha beta, leaves_surroundings (white_loop search moves alpha beta).
Proof.
  intros Ls. induction moves as [|m ms IH]; intros alpha beta; simpl;
    [apply leaves_ret|].
  apply leaves_bind; [apply leaves_push|intros _].
  apply leaves_bind; [apply Ls|intros v].
  apply leaves_bind; [apply leaves_pop|intros _].
  destruct (val_geb _ beta); [apply leaves_ret|apply IH].
Qed.

Lemma leaves_black_loop (search : val -> val -> M val) moves :
  (forall a b, leaves_surroundings (search a b)) ->
  forall alpha beta, leaves_surroundings (black_loop search moves alpha beta).
Proof.
  intros Ls. induction moves as [|m ms IH]; intros alpha beta; simpl;
    [apply leaves_ret|].
  apply leaves_bind; [apply leaves_push|intros _].
  apply leaves_bind; [apply Ls|intros v].
  apply leaves_bind; [apply leaves_pop|intros _].
  destruct (val_geb alpha _); [apply leaves_ret|apply IH].
Qed.

Lemma leaves_alpha_beta_search depth :
  forall alpha beta player,
    leaves_surroundings (alpha_beta_search depth alpha beta player).
Proof.
  induction depth as [|d IH]; intros alpha beta player; simpl.
  - apply leaves_bind; [apply leaves_heuristic_valuation|intros v; apply leaves_ret].
  - destruct player.
    + apply leaves_bind; [apply leaves_sorted_moves|intros moves].
      apply leaves_white_loop. intros a b. apply IH.
    + apply leaves_bind; [apply leaves_sorted_moves|intros moves].
      apply leaves_black_loop. intros a b. apply IH.
Qed.

Lemma leaves_root_loop (search : M val) moves :
  leaves_surroundings search ->
  forall opt min_value, leaves_surroundings (root_loop search moves opt min_value).
Proof.
  intros Ls. induction moves as [|m ms IH]; intros opt min_value; simpl;
    [apply leaves_ret|].
  apply leaves_bind; [apply leaves_push|intros _].
  apply leaves_bind; [apply Ls|intros v].
  apply leaves_bind; [apply leaves_pop|intros _].
  destruct (val_ltb v min_value); apply IH.
Qed.

(** X25. A search of any depth opens no file and changes neither the cache
    path nor the model of the engine, also when it raises: all it changes is
    the position cache and the board. *)
Theorem alpha_beta_search_writes_no_file
    (depth : nat) (alpha beta : val) (player : Player) (w : World) :
  let w' := snd (alpha_beta_search depth alpha beta player w) in
  disk w' = disk w
  /\ cache_path (self w') = cache_path (self w)
  /\ model (self w') = model (self w).
Proof.
  cbv zeta. pose proof (leaves_alpha_beta_search depth alpha beta player w) as L.
  unfold surroundings in L. injection L as -> -> ->. auto.
Qed.

(** X3. For every depth of 1 or more, the loop of [move_optimization] over
    the root moves (lines 229-236) always ends: no search it starts raises,
    the board is left as it was found, every entry of the position cache is
    kept, and nothing on the disk has changed when the loop ends. What
    [move_optimization] returns, when the write that follows lets it return,
    is the choice of the loop. *)
Theorem move_optimization_loop_returns_and_restores
    (alpha beta : val) (depth : nat) (w : World) :
  (1 <= depth)%nat ->
  exists choice w',
    root_loop (alpha_beta_search (depth - 1) alpha beta White)
      (legal_moves (position (board w))) None (Fin (dec 10000000000 1)) w
    = (Ok choice, w')
    /\ board w' = board w
    /\ cache_of w ⊆ cache_of w'
    /\ disk w' = disk w
    /\ forall r w'', move_optimization alpha beta (depth - 1) w = (Ok r, w'') ->
                     r = choice.
Proof.
  intros _.
  set (search := alpha_beta_search (depth - 1) alpha beta White).
  set (moves := legal_moves (position (board w))).
  destruct (restores_root_loop search moves
              (proj1 (alpha_beta_search_frames (depth - 1) alpha beta White))
              None (Fin (dec 10000000000 1)) w) as (choice & w' & E & B).
  pose proof (grows_root_loop search moves
                (grows_alpha_beta_search (depth - 1) alpha beta White)
                None (Fin (dec 10000000000 1)) w) as G.
  pose proof (leaves_root_loop search moves
                (leaves_alpha_beta_search (depth - 1) alpha beta White)
                None (Fin (dec 10000000000 1)) w) as L.
  rewrite E in G, L. cbn [snd] in G, L. unfold surroundings in L.
  injection L as Ld _ _.
  exists choice, w'. split; [exact E|]. split; [exact B|]. split; [exact G|].
  split; [exact Ld|].
  intros r w'' R. rewrite move_optimization_run in R.
  fold moves search in R. rewrite E in R. by injection R as <- _.
Qed.

End SurroundingsFacts.

(** ** The game headers *)

Lemma headers_not_empty (headers : gmap string string) (name v : string) :
  headers !! name = Some v -> bool_decide (headers = ∅) = false.
Proof.
  intros E. apply bool_decide_eq_false. intros ->.
  rewrite lookup_empty in E. discriminate.
Qed.

(** X21. Of the games that carry a date and one of the four results of
    PGN, [headers_filter] keeps the won games, 1-0 and 0-1, and drops the
    drawn and the unfinished ones. *)
Theorem headers_filter_keeps_the_decided_games
    (headers : gmap string string) (date result : string) :
  headers !! "Date"%string = Some date ->
  headers !! "Result"%string = Some result ->
  result ∈ pgn_results ->
  headers_filter headers
  = Value (bool_decide (result = "1-0"%string \/ result = "0-1"%string)).
Proof.
  intros D R Hr. unfold headers_filter, header.
  rewrite (headers_not_empty _ _ _ D), D, R.
  rewrite (bool_decide_eq_true_2 (is_Some (Some date))) by eauto.
  cbn [negb]. unfold pgn_results in Hr.
  repeat (apply elem_of_cons in Hr as [->|Hr]; [reflexivity|]).
  by apply elem_of_nil in Hr.
Qed.

(** X22. [headers_filter] raises in two cases only: the headers hold a date
    and no result ([KeyError]), or a date and an empty result
    ([IndexError]). Without a date it never raises: the result is not
    looked at. *)
Theorem headers_filter_raises_without_a_result
    (headers : gmap string string) (e : header_exn) :
  headers_filter headers = Error e
  <-> is_Some (headers !! "Date"%string)
      /\ (headers !! "Result"%string = None /\ e = KeyError
          \/ headers !! "Result"%string = Some ""%string /\ e = StringIndexError).
Proof.
  unfold headers_filter, header. split.
  - destruct (bool_decide (headers = ∅)); [discriminate|].
    destruct (headers !! "Date"%string) as [d|] eqn:D.
    2:{ rewrite bool_decide_eq_false_2 by (intros [x Hx]; discriminate).
        discriminate. }
    rewrite (bool_decide_eq_true_2 (is_Some (Some d))) by eauto. cbn [negb].
    destruct (headers !! "Result"%string) as [[|c r]|].
    + intros [= <-]. split; [eauto|]. right. auto.
    + destruct (Ascii.eqb c "*"); [discriminate|].
      destruct (contains "2" (String c r)); discriminate.
    + intros [= <-]. split; [eauto|]. left. auto.
  - intros [[d D] Hr]. rewrite (headers_not_empty _ _ _ D), D.
    rewrite (bool_decide_eq_true_2 (is_Some (Some d))) by eauto. cbn [negb].
    destruct Hr as [[-> ->]|[-> ->]]; reflexivity.
Qed.

Lemma split_at_space (s : string) : forall s' t t' : string,
  spaceless s -> spaceless s' ->
  (s ++ " " ++ t)%string = (s' ++ " " ++ t')%string -> s = s' /\ t = t'.
Proof.
  unfold spaceless.
  induction s as [|c s IH]; intros [|c' s'] t t' Hs Hs' E; simpl in E.
  - injection E as E. auto.
  - injection E as Ec _. subst c'. simpl in Hs'. discriminate.
  - injection E as Ec _. subst c. simpl in Hs. discriminate.
  - injection E as Ec E. subst c'. cbn [contains] in Hs, Hs'.
    apply orb_false_elim in Hs as [_ Hs]. apply orb_false_elim in Hs' as [_ Hs'].
    destruct (IH s' t t' Hs Hs' E) as [-> ->]. auto.
Qed.

(** X23. Two games whose dates and Black players are written without a
    space get the same hash only if they agree on the date and on both
    players. *)
Theorem hash_game_separates_games
    (headers headers' : gmap string string) (date black date' black' key : string) :
  headers !! "Date"%string = Some date -> headers !! "Black"%string = Some black ->
  headers' !! "Date"%string = Some date' -> headers' !! "Black"%string = Some black' ->
  spaceless date -> spaceless black -> spaceless date' -> spaceless black' ->
  hash_game headers = Value key -> hash_game headers' = Value key ->
  date = date' /\ black = black'
  /\ headers !! "White"%string = headers' !! "White"%string.
Proof.
  intros D B D' B' Sd Sb Sd' Sb' E E'. unfold hash_game, header in E, E'.
  rewrite D, B in E. rewrite D', B' in E'.
  destruct (headers !! "White"%string) as [w|]; [|discriminate].
  destruct (headers' !! "White"%string) as [w'|]; [|discriminate].
  injection E as <-. injection E' as E'. cbn [String.concat] in E'.
  apply split_at_space in E' as [-> E']; [|assumption..].
  apply split_at_space in E' as [-> ->]; [|assumption..].
  auto.
Qed.

(** X24. [hash_game] raises exactly when the date, Black or White is
    missing from the headers, and then it raises [KeyError]. *)
Theorem hash_game_raises_on_a_missing_header
    (headers : gmap string string) (e : header_exn) :
  hash_game headers = Error e
  <-> e = KeyError
      /\ (headers !! "Date"%string = None \/ headers !! "Black"%string = None
          \/ headers !! "White"%string = None).
Proof.
  unfold hash_game, header.
  destruct (headers !! "Date"%string), (headers !! "Black"%string),
    (headers !! "White"%string); split;
    try (intros [= <-]; auto); try discriminate;
    try (intros [-> [?|[?|?]]]; try discriminate; reflexivity).
Qed.

(** ** The engine on chess positions *)

Section OnTheBoard.
Import Chess Setup.

(** C10, on a board: the position after 1. e4 set up from its FEN, Black to
    move and nothing to pop. *)
Lemma heuristic_valuation_black_empty_stack_raises_witness :
  heuristic_valuation (fresh after_e4_fen) = (Raise IndexError, fresh after_e4_fen).
Proof.
  apply heuristic_valuation_black_empty_stack_raises; vm_compute; reflexivity.
Defined.

(** C1. After 1. e4 (Black to move), a search of depth 0, that is one
    heuristic evaluation, returns a value and leaves the board changed: the
    move e2e4 has been popped and a null move pushed, so the board shows the
    starting position with Black to move, and its hash is another one. *)
Theorem alpha_beta_search_leaves_board_changed :
  let r := alpha_beta_search 0 NegInf PosInf Black (fresh after_e4) in
  returned r = Ok (Fin (dec 34441 250))
  /\ position (board_after r) = push_move starting_position mv_null
  /\ move_stack (board_after r) = [(mv_null, starting_position)]
  /\ board_after r <> after_e4
  /\ zobrist_hash (position (board_after r)) <> zobrist_hash (position after_e4).
Proof.
  cbv zeta. split; [run_val|]. split; [vm_compute; reflexivity|].
  split; [vm_compute; reflexivity|]. split.
  - intros E. apply (f_equal move_stack) in E. revert E. vm_compute. discriminate.
  - vm_compute. discriminate.
Qed.

(** C2. White king g1, black king d1, White to move, depth 3, empty cache,
    alpha = -inf and beta = +inf: the search returns -1.1; the exhaustive
    minimax over the same moves with the same evaluation returns 3.9, and 0
    when it makes the ordering pass of the search as well. *)
Theorem alpha_beta_search_differs_from_minimax :
  returned (alpha_beta_search 3 NegInf PosInf White (fresh two_kings_board))
    = Ok (Fin (dec (-11) 10))
  /\ returned (minimax 3 White (fresh two_kings_board)) = Ok (Fin (dec 39 10))
  /\ returned (minimax_ordered 3 White (fresh two_kings_board)) = Ok (Fin (dec 0 1)).
Proof. repeat split; run_val. Qed.

(** The cause: the value of a position with Black to move depends on the
    position it was reached from. *)
Lemma valuation_depends_on_previous_position :
  position king_from_g1 = position king_from_h1
  /\ returned (heuristic_valuation (fresh king_from_g1)) = Ok (dec 0 1)
  /\ returned (heuristic_valuation (fresh king_from_h1)) = Ok (dec (-16) 10).
Proof. split; [vm_compute; reflexivity|]. split; run_Qc. Qed.

(** C3. On the starting position ten counts are taken, not the twelve of
    [ChessPipeline.get_piece_counts]: the kings are left out, so the sixth
    count (black pawns) meets the sixth weight (the white king's 15), and the
    material term is 139.764. *)
Theorem material_term_of_starting_position :
  count_pieces start_board = [8; 2; 2; 2; 1; 8; 2; 2; 2; 1]
  /\ pipeline_get_piece_counts start_board = [8; 2; 2; 2; 1; 1; 8; 2; 2; 2; 1; 1]
  /\ piece_values !! 5%nat = Some (dec 15 1)
  /\ returned (weigh 0 (count_pieces start_board) (dec 0 1) (fresh start_board))
       = Ok (dec 139764 1000).
Proof.
  split; [vm_compute; reflexivity|]. split; [vm_compute; reflexivity|].
  split; [reflexivity|]. run_Qc.
Qed.

(** C4. On the starting position no pawn has moved, and the totals are 8
    for White and 48 for Black: each pawn counts its rank index. *)
Theorem pawn_development_of_starting_position :
  get_pawn_development start_board = (8, 48)
  /\ pawn_term (get_pawn_development start_board) = dec (-2) 1.
Proof.
  split; [vm_compute; reflexivity|]. apply Qc_is_canon. vm_compute. reflexivity.
Qed.

(** C5, as stated, fails: the valuation of the starting position is
    137.764. *)
Lemma starting_position_valuation_not_zero :
  ~ (material (count_pieces start_board) = dec 0 1
     /\ pawn_term (get_pawn_development start_board) = dec 0 1
     /\ returned (heuristic_valuation (fresh start_board)) = Ok (dec 0 1)).
Proof.
  intros (_ & _ & E).
  assert (E' : returned (heuristic_valuation (fresh start_board)) = Ok (dec 34441 250))
    by run_Qc.
  rewrite E' in E.
  assert (E0 : dec 34441 250 = dec 0 1) by congruence.
  revert E0. apply Qc_neq_by_compute. vm_compute. reflexivity.
Qed.

(** C5, amended. On the starting position the mobility differential is
    exactly zero (20 moves and concentration 1024 for each side); the
    material differential is not zero, the black weights being -0.97 times
    the white ones; and the valuation returned is not 0.0. *)
Theorem starting_position_valuation :
  (exists mf,
      returned (get_mobility_features (fresh start_board)) = Ok mf
      /\ white_mobility mf = 20 /\ black_mobility mf = 20
      /\ white_move_entropy mf = dec 1024 1 /\ black_move_entropy mf = dec 1024 1
      /\ mobility_term mf = dec 0 1)
  /\ material (count_pieces start_board) <> dec 0 1
  /\ (exists v, returned (heuristic_valuation (fresh start_board)) = Ok v
                /\ v <> dec 0 1).
Proof.
  split; [|split].
  - exists (mobility_of start_board). split.
    + unfold returned. rewrite get_mobility_features_white by reflexivity. reflexivity.
    + repeat split; try (vm_compute; reflexivity);
        apply Qc_is_canon; vm_compute; reflexivity.
  - apply Qc_neq_by_compute. vm_compute. reflexivity.
  - exists (dec 34441 250). split; [run_Qc|].
    apply Qc_neq_by_compute. vm_compute. reflexivity.
Qed.


(** C8. After 1. e4 (Black to move) the mobility term of the valuation is
    not the stated contribution. White has 30 legal moves on that board, with
    concentration 15360, and Black 20, with concentration 1024: the stated
    contribution is 0.1 * (30 * 15360 - 20 * 1024) = 44032. The code pops
    e2e4 before it measures White, counts the 20 moves of the starting
    position, with concentration 1024, and adds a mobility term of 0 to the
    material and the pawn term. *)
Theorem mobility_contribution_measures_previous_position :
  let r := heuristic_valuation (fresh after_e4) in
  len (stated_moves true after_e4) = 30
  /\ stated_concentration (stated_moves true after_e4) = dec 15360 1
  /\ len (stated_moves false after_e4) = 20
  /\ stated_concentration (stated_moves false after_e4) = dec 1024 1
  /\ stated_mobility_contribution after_e4 = dec 44032 1
  /\ exists mf,
       returned (get_mobility_features (fresh after_e4)) = Ok mf
       /\ white_mobility mf = 20 /\ white_move_entropy mf = dec 1024 1
       /\ black_mobility mf = 20 /\ black_move_entropy mf = dec 1024 1
       /\ mobility_term mf = dec 0 1
       /\ returned r
          = Ok (material (count_pieces after_e4)
                + (mobility_term mf
                   + pawn_term (get_pawn_development (board_after r))))%Qc
       /\ mobility_term mf <> stated_mobility_contribution after_e4.
Proof.
  cbv zeta.
  assert (C : stated_mobility_contribution after_e4 = dec 44032 1)
    by (apply Qc_eq_by_compute; vm_compute; reflexivity).
  split; [vm_compute; reflexivity|].
  split; [apply Qc_eq_by_compute; vm_compute; reflexivity|].
  split; [vm_compute; reflexivity|].
  split; [apply Qc_eq_by_compute; vm_compute; reflexivity|].
  split; [exact C|].
  exists (mobility_of after_e4).
  assert (Z0 : mobility_term (mobility_of after_e4) = dec 0 1)
    by (apply Qc_eq_by_compute; vm_compute; reflexivity).
  split.
  { unfold returned. rewrite get_mobility_features_black; [reflexivity|..].
    - vm_compute. reflexivity.
    - discriminate. }
  split; [vm_compute; reflexivity|].
  split; [apply Qc_eq_by_compute; vm_compute; reflexivity|].
  split; [vm_compute; reflexivity|].
  split; [apply Qc_eq_by_compute; vm_compute; reflexivity|].
  split; [exact Z0|]. split.
  - unfold returned, board_after.
    rewrite heuristic_valuation_miss; [reflexivity|vm_compute; reflexivity|].
    right. discriminate.
  - rewrite Z0, C. apply Qc_neq_by_compute. vm_compute. reflexivity.
Qed.

(** C9, on that engine: the stored value is returned, and is still there
    after a search of depth 1. *)
Lemma position_cache_append_only_witness :
  heuristic_valuation primed = (Ok (dec 1 2), primed)
  /\ cache_of (snd (alpha_beta_search 1 NegInf PosInf White primed))
       !! key starting_position = Some (dec 1 2).
Proof.
  destruct (position_cache_append_only (Model := unit)) as [Hit Keep].
  assert (Hk : cache_of primed !! key starting_position = Some (dec 1 2))
    by (vm_compute; reflexivity).
  split.
  - apply Hit. exact Hk.
  - destruct (Keep primed (key starting_position) (dec 1 2) Hk) as (_ & _ & Hab & _).
    apply Hab.
Defined.

(** C7, as stated, fails: no model file exists, a model path is given, and
    the caller gets an engine that searches the starting position. *)
Lemma missing_model_does_not_stop_the_search :
  let d := {| cache_files := ∅; model_files := (∅ : gmap string unit) |} in
  fst (init d "cache" (Some "model.pkl"%string))
    = ["ERROR. Model not found. Please check model path again."%string]
  /\ returned (alpha_beta_search 1 NegInf PosInf White
                 {| self := snd (init d "cache" (Some "model.pkl"%string));
                    board := start_board; disk := d |})
     = Ok (Fin (dec 34441 250)).
Proof. cbv zeta. split; [reflexivity|run_val]. Qed.

(** C7, amended, on an empty disk. *)
Lemma missing_model_is_printed_not_raised_witness :
  let d := {| cache_files := ∅; model_files := (∅ : gmap string unit) |} in
  init d "cache" (Some "model.pkl"%string) =
    (["ERROR. Model not found. Please check model path again."%string],
     {| position_cache := default ∅ (cache_files d !! "cache"%string);
        cache_path := "cache"; model := None |})
  /\ forall predict_proba (w : World unit),
       self w = snd (init d "cache" (Some "model.pkl"%string)) ->
       model_valuation predict_proba w = (Raise AttributeError, w).
Proof.
  cbv zeta. apply missing_model_is_printed_not_raised.
  - discriminate.
  - reflexivity.
Defined.

End OnTheBoard.

(** ** The further facts on chess positions *)

Section MoreOnTheBoard.
Import Chess Setup Cases.


(** X5, on the two kings after a first search of depth 2. *)
Lemma alpha_beta_search_is_minimax_on_cached_positions_witness :
  alpha_beta_search 2 NegInf PosInf White after_search = minimax 2 White after_search.
Proof.
  apply alpha_beta_search_is_minimax_on_cached_positions. vm_compute. reflexivity.
Defined.

(** X6, on the same engine, in the window from 0 to 1. *)
Lemma alpha_beta_search_stands_for_minimax_witness :
  exists v r,
    minimax 2 White after_search = (Ok v, after_search)
    /\ alpha_beta_search 2 (Fin (dec 0 1)) (Fin (dec 1 1)) White after_search
       = (Ok r, after_search)
    /\ stands_for val_ltb (Fin (dec 0 1)) (Fin (dec 1 1)) v r.
Proof.
  apply alpha_beta_search_stands_for_minimax; vm_compute; reflexivity.
Defined.

(** X7, on the starting position. *)
Lemma heuristic_valuation_repeats_witness :
  exists v w',
    heuristic_valuation (fresh start_board) = (Ok v, w')
    /\ board w' = board (fresh start_board)
    /\ heuristic_valuation w' = (Ok v, w').
Proof.
  apply heuristic_valuation_repeats. vm_compute. reflexivity.
Defined.

(** X9, after 1. e4. *)
Lemma heuristic_valuation_swaps_last_move_for_null_witness :
  exists v w',
    heuristic_valuation (fresh after_e4) = (Ok v, w')
    /\ board w' = {| position := play starting_position null;
                     move_stack := [(null, starting_position)] |}.
Proof.
  apply (heuristic_valuation_swaps_last_move_for_null (fresh after_e4) e2e4
           starting_position []).
  - vm_compute. reflexivity.
  - reflexivity.
  - vm_compute. reflexivity.
Defined.

(** X10, on the starting position. *)
Lemma heuristic_valuation_miss_adds_one_entry_witness :
  exists v w',
    heuristic_valuation (fresh start_board) = (Ok v, w')
    /\ cache_of w'
       = <[zobrist_hash (position (board (fresh start_board))) := v]>
           (cache_of (fresh start_board))
    /\ size (cache_of w') = S (size (cache_of (fresh start_board))).
Proof.
  apply heuristic_valuation_miss_adds_one_entry.
  - vm_compute. reflexivity.
  - left. vm_compute. reflexivity.
Defined.

(** X15, on two orders of the same squares. *)
Lemma get_entropy_ignores_the_order_witness :
  exists n,
    get_entropy_double starts = Returns (Whole n)
    /\ get_entropy_double starts' = Returns (Whole n)
    /\ get_entropy starts = Qc_of_Z n
    /\ get_entropy starts' = Qc_of_Z n.
Proof.
  apply get_entropy_ignores_the_order.
  - unfold starts, starts'. apply perm_swap.
  - rewrite get_entropy_whole. apply (proj1 (Z2Qc_inj_le _ _)). vm_compute. discriminate.
Defined.

(** Past 2^53 the order matters: the same samples give two floats, neither
    of them the exact product. *)
Lemma get_entropy_double_depends_on_the_order :
  threes_then_five ≡ₚ five_then_threes
  /\ get_entropy_double threes_then_five = Returns (Whole 27795302832777616)
  /\ get_entropy_double five_then_threes = Returns (Whole 27795302832777612)
  /\ get_entropy threes_then_five = Qc_of_Z 27795302832777615.
Proof.
  split; [apply Permutation_app_comm|].
  split; [vm_compute; reflexivity|]. split; [vm_compute; reflexivity|].
  rewrite get_entropy_whole. f_equal.
Qed.

(** X3, on the two kings, with depth 2. *)
Lemma move_optimization_loop_returns_and_restores_witness :
  exists choice w',
    root_loop (alpha_beta_search (2 - 1) NegInf PosInf White)
      (legal_moves (position (board (fresh two_kings_board)))) None
      (Fin (dec 10000000000 1)) (fresh two_kings_board)
    = (Ok choice, w')
    /\ board w' = board (fresh two_kings_board)
    /\ cache_of (fresh two_kings_board) ⊆ cache_of w'
    /\ disk w' = disk (fresh two_kings_board)
    /\ forall r w'',
         move_optimization NegInf PosInf (2 - 1) (fresh two_kings_board) = (Ok r, w'') ->
         r = choice.
Proof.
  apply (move_optimization_loop_returns_and_restores NegInf PosInf 2). lia.
Defined.


(** X21, on the drawn game. *)
Lemma headers_filter_keeps_the_decided_games_witness :
  headers_filter drawn_game
  = Value (bool_decide ("1/2-1/2"%string = "1-0"%string
                        \/ "1/2-1/2"%string = "0-1"%string)).
Proof.
  apply (headers_filter_keeps_the_decided_games drawn_game "2019.03.02").
  - vm_compute. reflexivity.
  - vm_compute. reflexivity.
  - unfold pgn_results. apply list_elem_of_In. simpl. auto.
Defined.

(** X23, on the two entries of the same game. *)
Lemma hash_game_separates_games_witness :
  "2019.03.02"%string = "2019.03.02"%string
  /\ "Kramnik"%string = "Kramnik"%string
  /\ won_game !! "White"%string = drawn_game !! "White"%string.
Proof.
  apply (hash_game_separates_games won_game drawn_game
           "2019.03.02" "Kramnik" "2019.03.02" "Kramnik"
           "2019.03.02 Kramnik Anand");
    vm_compute; reflexivity.
Defined.

End MoreOnTheBoard.
